(** * Book-store: the reducer, the derived view and the local-storage hook
    of [src/App.tsx], embedded and verified.

    The program is a React component written in TypeScript.  Its types are
    erased at run time and the reducer's payload is declared [any], so the
    embedding works on run-time values: a collection is an array of values,
    a book is the object [{title, author, year}], and an operation that can
    raise [TypeError] or [SyntaxError] returns a completion. *)

From Stdlib Require Import ZArith QArith Qround Ascii String DecimalString.
From stdpp Require Import base option list gmap strings.

#[local] Set Warnings "-register-all".
Local Open Scope Z_scope.

(** ** Strings and values *)

(** A JavaScript string is a sequence of UTF-16 code units. *)
Abbreviation code_unit := N (only parsing).
Abbreviation jsstring := (list N) (only parsing).

(** Literals of the source, written as Rocq strings. *)
Definition js (s : string) : jsstring :=
  map N_of_ascii (list_ascii_of_string s).

(** Run-time values.  A number is kept as the exact decimal [m * 10^e];
    rounding to a double is not part of the model.  An object is the list of
    its own properties in insertion order; an array is dense. *)
Inductive value : Type :=
  | VUndefined
  | VNull
  | VBool (b : bool)
  | VNum (m e : Z)
  | VStr (s : jsstring)
  | VArr (l : list value)
  | VObj (ps : list (jsstring * value)).

(** The number of an array index, as the callbacks of [filter] and [map]
    receive it. *)
Definition index_value (i : nat) : value := VNum (Z.of_nat i) 0.

(** What a statement can raise. *)
Inductive error : Type :=
  | TypeError
  | SyntaxError
  | QuotaExceededError
  | ChildError.

Inductive completion (A : Type) : Type :=
  | Normal (a : A)
  | Throw (e : error).
Arguments Normal {A} a.
Arguments Throw {A} e.

Definition bind {A B} (c : completion A) (k : A -> completion B) : completion B :=
  match c with
  | Normal a => k a
  | Throw e => Throw e
  end.

Notation "x <- c ;; k" := (bind c (fun x => k))
  (at level 100, c at next level, right associativity).

(** [i === v] for an array index [i]: true exactly when [v] is a number of
    the same numeric value. *)
Definition strict_eq_index (i : nat) (v : value) : bool :=
  match v with
  | VNum m e =>
      if 0 <=? e then m * 10 ^ e =? Z.of_nat i
      else m =? Z.of_nat i * 10 ^ (- e)
  | _ => false
  end.

(** Equality of strings, code unit by code unit. *)
Fixpoint str_eqb (s t : jsstring) : bool :=
  match s, t with
  | [], [] => true
  | c :: s', d :: t' => (c =? d)%N && str_eqb s' t'
  | _, _ => false
  end.

(** [s === v] for a string [s], as the [case] labels of a [switch] test it. *)
Definition strict_eq_str (s : jsstring) (v : value) : bool :=
  match v with
  | VStr t => str_eqb s t
  | _ => false
  end.

(** Property read [v.k].  [undefined] and [null] have no properties and the
    read throws; an object yields its own property of that name, or
    [undefined]; the other values have no property of the names the program
    reads ([index], [book], [title]). *)
Fixpoint own_property (ps : list (jsstring * value)) (k : jsstring) : option value :=
  match ps with
  | [] => None
  | (k', v) :: ps' => if str_eqb k' k then Some v else own_property ps' k
  end.

Definition get (v : value) (k : jsstring) : completion value :=
  match v with
  | VUndefined | VNull => Throw TypeError
  | VObj ps => Normal (default VUndefined (own_property ps k))
  | _ => Normal VUndefined
  end.

(** Property write [o[k] = v] on the property list: an existing property
    keeps its place and takes the new value, a new one goes last. *)
Fixpoint set_property (ps : list (jsstring * value)) (k : jsstring) (v : value)
  : list (jsstring * value) :=
  match ps with
  | [] => [(k, v)]
  | (k', w) :: ps' =>
      if str_eqb k' k then (k', v) :: ps' else (k', w) :: set_property ps' k v
  end.

(** ** Arrays *)

(** [Array.prototype.filter] and [Array.prototype.map]: the callback gets the
    element and its index, runs on the elements from left to right, and what
    it throws ends the call.  Both build a new array. *)
Fixpoint filter_from (i : nat) (f : value -> nat -> completion bool) (l : list value)
  : completion (list value) :=
  match l with
  | [] => Normal []
  | x :: l' =>
      keep <- f x i ;;
      ys <- filter_from (S i) f l' ;;
      Normal (if keep : bool then x :: ys else ys)
  end.

Definition Array_filter (f : value -> nat -> completion bool) (l : list value)
  : completion (list value) :=
  filter_from 0 f l.

Fixpoint map_from (i : nat) (f : value -> nat -> completion value) (l : list value)
  : completion (list value) :=
  match l with
  | [] => Normal []
  | x :: l' =>
      y <- f x i ;;
      ys <- map_from (S i) f l' ;;
      Normal (y :: ys)
  end.

Definition Array_map (f : value -> nat -> completion value) (l : list value)
  : completion (list value) :=
  map_from 0 f l.

(** ** The reducer (App.tsx, lines 42-53) *)

Record Action : Type := { type : value; payload : value }.

Definition ADD_BOOK : jsstring := Eval cbv in js "ADD_BOOK".
Definition DELETE_BOOK : jsstring := Eval cbv in js "DELETE_BOOK".
Definition EDIT_BOOK : jsstring := Eval cbv in js "EDIT_BOOK".
Definition k_index : jsstring := Eval cbv in js "index".
Definition k_book : jsstring := Eval cbv in js "book".

(** An array the reducer hands back is either a newly built one (spread,
    [filter] and [map] always allocate) or the very array it was given (the
    [default] branch).  React tells the two apart with [Object.is]. *)
Inductive array_result : Type :=
  | Fresh (l : list value)
  | Input.

Definition contents (state : list value) (r : array_result) : list value :=
  match r with
  | Fresh l => l
  | Input => state
  end.

Definition reducer (state : list value) (action : Action) : completion array_result :=
  if strict_eq_str ADD_BOOK (type action) then
    Normal (Fresh (state ++ [payload action]))
  else if strict_eq_str DELETE_BOOK (type action) then
    l <- Array_filter
           (fun _ index => Normal (negb (strict_eq_index index (payload action))))
           state ;;
    Normal (Fresh l)
  else if strict_eq_str EDIT_BOOK (type action) then
    l <- Array_map
           (fun book index =>
              i <- get (payload action) k_index ;;
              if strict_eq_index index i then get (payload action) k_book
              else Normal book)
           state ;;
    Normal (Fresh l)
  else
    Normal Input.

(** The actions the component dispatches (lines 70-80). *)
Definition handleAddBook (book : value) : Action :=
  {| type := VStr ADD_BOOK; payload := book |}.

Definition handleDeleteBook (index : value) : Action :=
  {| type := VStr DELETE_BOOK; payload := index |}.

Definition handleEditBook (index : value) (book : value) : Action :=
  {| type := VStr EDIT_BOOK;
     payload := VObj [(k_index, index); (k_book, book)] |}.

(** A position as the specification has it: an integer. *)
Definition position (p : Z) : value := VNum p 0.

(** ** Books *)

Record Book : Type := { title : jsstring; author : jsstring; year : jsstring }.

Definition k_title : jsstring := Eval cbv in js "title".
Definition k_author : jsstring := Eval cbv in js "author".
Definition k_year : jsstring := Eval cbv in js "year".

(** The object [{title, author, year}] of a book (lines 89-93 and 144). *)
Definition book_value (b : Book) : value :=
  VObj [(k_title, VStr (title b)); (k_author, VStr (author b)); (k_year, VStr (year b))].

Definition books_value (C : list Book) : list value := map book_value C.

(** The form (lines 86-99): the three inputs' texts make the book added. *)
Definition handleSubmit (t a y : jsstring) : Action :=
  handleAddBook (book_value {| title := t; author := a; year := y |}).

(** Reading a value back as a book: an object with exactly these three own
    properties, in this order, each a string. *)
Definition as_book (v : value) : option Book :=
  match v with
  | VObj [(k1, VStr t); (k2, VStr a); (k3, VStr y)] =>
      if str_eqb k1 k_title && str_eqb k2 k_author && str_eqb k3 k_year
      then Some {| title := t; author := a; year := y |}
      else None
  | _ => None
  end.

(** ** The derived view (App.tsx, lines 101-104 and 163) *)

(** [String.prototype.includes]: [t] occurs in [s] as a run of code units. *)
Fixpoint starts_with (s t : jsstring) {struct t} : bool :=
  match t, s with
  | [], _ => true
  | d :: t', c :: s' => (c =? d)%N && starts_with s' t'
  | _ :: _, [] => false
  end.

Fixpoint includes (s t : jsstring) : bool :=
  starts_with s t ||
  match s with
  | [] => false
  | _ :: s' => includes s' t
  end.

(** [Array.prototype.slice(start, end)] with integer arguments: a negative
    argument counts from the end, and both are clamped to the array. *)
Definition Array_slice (l : list value) (start end_ : Z) : list value :=
  let len := Z.of_nat (length l) in
  let k := if start <? 0 then Z.max (len + start) 0 else Z.min start len in
  let final := if end_ <? 0 then Z.max (len + end_) 0 else Z.min end_ len in
  take (Z.to_nat (final - k)) (drop (Z.to_nat k) l).

Definition booksPerPage : Z := 5.

(** [Math.ceil(n / d)] on array lengths, in exact rational arithmetic. *)
Definition Math_ceil_div (n d : Z) : Z := Qceiling (inject_Z n / inject_Z d).

Section View.

(** [String.prototype.toLowerCase] is the platform's; the view is defined
    over any such function. *)
Variable toLowerCase : jsstring -> jsstring.

(** The method call [v.toLowerCase()]: only a string has the method. *)
Definition call_toLowerCase (v : value) : completion jsstring :=
  match v with
  | VStr s => Normal (toLowerCase s)
  | _ => Throw TypeError
  end.

Definition filteredBooks (state : list value) (searchTerm : jsstring)
  : completion (list value) :=
  Array_filter
    (fun book _ =>
       t <- get book k_title ;;
       lt <- call_toLowerCase t ;;
       Normal (includes lt (toLowerCase searchTerm)))
    state.

Definition indexOfLastBook (currentPage : Z) : Z := currentPage * booksPerPage.

Definition indexOfFirstBook (currentPage : Z) : Z :=
  indexOfLastBook currentPage - booksPerPage.

Definition currentBooks (state : list value) (searchTerm : jsstring) (currentPage : Z)
  : completion (list value) :=
  fb <- filteredBooks state searchTerm ;;
  Normal (Array_slice fb (indexOfFirstBook currentPage) (indexOfLastBook currentPage)).

(** The number of page buttons (line 163). *)
Definition totalPages (state : list value) (searchTerm : jsstring) : completion Z :=
  fb <- filteredBooks state searchTerm ;;
  Normal (Math_ceil_div (Z.of_nat (length fb)) booksPerPage).

(** A rendered table row (lines 133-148): the book it shows and what its
    two buttons dispatch.  [index] is the row's place in [currentBooks].
    The edit button asks three [prompt]s, each answering a string or [null],
    and dispatches only when all three answers are non-empty strings. *)
Record Row : Type := {
  shown : value;
  onDelete : Action;
  onEdit : option jsstring -> option jsstring -> option jsstring -> option Action
}.

Definition truthy (answer : option jsstring) : bool :=
  match answer with
  | Some (_ :: _) => true
  | _ => false
  end.

Definition edit_click (index : nat) (t a y : option jsstring) : option Action :=
  if truthy t && truthy a && truthy y then
    Some (handleEditBook (index_value index)
            (book_value {| title := default [] t; author := default [] a;
                           year := default [] y |}))
  else None.

Definition rows (state : list value) (searchTerm : jsstring) (currentPage : Z)
  : completion (list Row) :=
  cb <- currentBooks state searchTerm currentPage ;;
  Normal (imap (fun index book =>
                  {| shown := book;
                     onDelete := handleDeleteBook (index_value index);
                     onEdit := edit_click index |}) cb).

End View.

(** ** What the table hands to React (App.tsx, lines 135-137)

    [{book.title}], [{book.author}] and [{book.year}] are children of a
    table cell.  React takes a string or a number as text, shows nothing for
    a boolean, [null] and [undefined], takes an array as its elements, and
    throws an [Error], here [ChildError], for any other object. *)
Fixpoint valid_child (v : value) : bool :=
  match v with
  | VObj _ => false
  | VArr l => forallb valid_child l
  | _ => true
  end.

Definition cells (book : value) : completion unit :=
  t <- get book k_title ;;
  a <- get book k_author ;;
  y <- get book k_year ;;
  if valid_child t && valid_child a && valid_child y then Normal tt
  else Throw ChildError.

Fixpoint table (rs : list Row) : completion unit :=
  match rs with
  | [] => Normal tt
  | row :: rs' => _ <- cells (shown row) ;; table rs'
  end.

(** A lower-casing of the ASCII letters, to run the view on examples. *)
Definition ascii_toLowerCase (s : jsstring) : jsstring :=
  map (fun c => if (65 <=? c)%N && (c <=? 90)%N then (c + 32)%N else c) s.

(** ** JSON text (the platform's [JSON.stringify] and [JSON.parse])

    The hook stores [JSON.stringify(value)] and reads it back with
    [JSON.parse].  Both are modelled on code units, after ECMA-262
    (QuoteJSONString, SerializeJSONProperty, the JSON grammar). *)

Local Open Scope N_scope.

Definition hex_digit (d : N) : code_unit :=
  if d <? 10 then 48 + d else 87 + d.

(** [\uXXXX] with four lower-case hexadecimal digits. *)
Definition unicode_escape (c : code_unit) : jsstring :=
  [92; 117; hex_digit (c / 4096 mod 16); hex_digit (c / 256 mod 16);
   hex_digit (c / 16 mod 16); hex_digit (c mod 16)].

Definition is_high_surrogate (c : code_unit) : bool := (55296 <=? c) && (c <=? 56319).
Definition is_low_surrogate (c : code_unit) : bool := (56320 <=? c) && (c <=? 57343).

(** The characters of a quoted string: the two-character escapes, [\uXXXX]
    for the other control characters and for a surrogate without its
    partner, every other code unit as it is. *)
Fixpoint quote_units (s : jsstring) : jsstring :=
  match s with
  | [] => []
  | c :: s' =>
      if c =? 8 then 92 :: 98 :: quote_units s'
      else if c =? 9 then 92 :: 116 :: quote_units s'
      else if c =? 10 then 92 :: 110 :: quote_units s'
      else if c =? 12 then 92 :: 102 :: quote_units s'
      else if c =? 13 then 92 :: 114 :: quote_units s'
      else if c =? 34 then 92 :: 34 :: quote_units s'
      else if c =? 92 then 92 :: 92 :: quote_units s'
      else if c <? 32 then unicode_escape c ++ quote_units s'
      else if is_high_surrogate c then
        match s' with
        | d :: s'' =>
            if is_low_surrogate d then c :: d :: quote_units s''
            else unicode_escape c ++ quote_units s'
        | [] => unicode_escape c
        end
      else if is_low_surrogate c then unicode_escape c ++ quote_units s'
      else c :: quote_units s'
  end.

Definition QuoteJSONString (s : jsstring) : jsstring :=
  34 :: quote_units s ++ [34].

Fixpoint join_comma (l : list jsstring) : jsstring :=
  match l with
  | [] => []
  | [x] => x
  | x :: l' => x ++ 44 :: join_comma l'
  end.

(** Number to text.  An integer prints its decimal digits; another number
    prints as a literal of the same value, mantissa and exponent.  (The
    platform prints the shortest literal that reads back as the same double;
    no book holds a number.) *)
Definition decimal (z : Z) : jsstring :=
  js (DecimalString.NilZero.string_of_int (Z.to_int z)).

Definition number_text (m e : Z) : jsstring :=
  if (0 <=? e)%Z then decimal (m * 10 ^ e)%Z
  else decimal m ++ 101 :: decimal e.

Definition t_null : jsstring := Eval cbv in js "null".
Definition t_true : jsstring := Eval cbv in js "true".
Definition t_false : jsstring := Eval cbv in js "false".
Definition t_undefined : jsstring := Eval cbv in js "undefined".

(** SerializeJSONProperty: [None] stands for the result [undefined].  In an
    array [undefined] prints as [null]; in an object a property whose value
    is [undefined] is left out.  Properties are written in the order of the
    list (the platform puts names that are array indices first; a book has
    none). *)
Fixpoint serialize (v : value) : option jsstring :=
  match v with
  | VUndefined => None
  | VNull => Some t_null
  | VBool b => Some (if b then t_true else t_false)
  | VNum m e => Some (number_text m e)
  | VStr s => Some (QuoteJSONString s)
  | VArr l =>
      Some (91 :: join_comma (map (fun x => default t_null (serialize x)) l) ++ [93])
  | VObj ps =>
      Some (123 :: join_comma
                     (omap (fun p => match serialize (snd p) with
                                     | Some t => Some (QuoteJSONString (fst p) ++ 58 :: t)
                                     | None => None
                                     end) ps) ++ [125])
  end.

Definition JSON_stringify (v : value) : option jsstring := serialize v.

(** Reading. *)
Definition is_ws (c : code_unit) : bool :=
  (c =? 32) || (c =? 9) || (c =? 10) || (c =? 13).

Fixpoint skip_ws (s : jsstring) : jsstring :=
  match s with
  | c :: s' => if is_ws c then skip_ws s' else s
  | [] => []
  end.

Definition hex_value (c : code_unit) : option N :=
  if (48 <=? c) && (c <=? 57) then Some (c - 48)
  else if (65 <=? c) && (c <=? 70) then Some (c - 55)
  else if (97 <=? c) && (c <=? 102) then Some (c - 87)
  else None.

Definition hex4 (h1 h2 h3 h4 : code_unit) : option code_unit :=
  match hex_value h1, hex_value h2, hex_value h3, hex_value h4 with
  | Some a, Some b, Some c, Some d => Some (a * 4096 + b * 256 + c * 16 + d)
  | _, _, _, _ => None
  end.

Definition simple_escape (e : code_unit) : option code_unit :=
  if e =? 34 then Some 34
  else if e =? 92 then Some 92
  else if e =? 47 then Some 47
  else if e =? 98 then Some 8
  else if e =? 102 then Some 12
  else if e =? 110 then Some 10
  else if e =? 114 then Some 13
  else if e =? 116 then Some 9
  else None.

Definition prepend (c : code_unit) (r : option (jsstring * jsstring))
  : option (jsstring * jsstring) :=
  match r with
  | Some (s, rest) => Some (c :: s, rest)
  | None => None
  end.

(** A string literal after its opening quote: the string, and the text after
    the closing quote. *)
Fixpoint parse_string_body (s : jsstring) : option (jsstring * jsstring) :=
  match s with
  | [] => None
  | c :: s' =>
      if c =? 34 then Some ([], s')
      else if c =? 92 then
        match s' with
        | [] => None
        | e :: s'' =>
            if e =? 117 then
              match s'' with
              | h1 :: h2 :: h3 :: h4 :: s3 =>
                  match hex4 h1 h2 h3 h4 with
                  | Some u => prepend u (parse_string_body s3)
                  | None => None
                  end
              | _ => None
              end
            else
              match simple_escape e with
              | Some u => prepend u (parse_string_body s'')
              | None => None
              end
        end
      else if c <? 32 then None
      else prepend c (parse_string_body s')
  end.

Definition is_digit (c : code_unit) : bool := (48 <=? c) && (c <=? 57).

(** A run of digits: the number read so far, how many digits, the rest. *)
Fixpoint read_digits (s : jsstring) (acc cnt : Z) : Z * Z * jsstring :=
  match s with
  | c :: s' =>
      if is_digit c then read_digits s' (acc * 10 + Z.of_N (c - 48))%Z (cnt + 1)%Z
      else (acc, cnt, s)
  | [] => (acc, cnt, [])
  end.

Definition parse_fraction (i : Z) (s : jsstring) : option (Z * Z * jsstring) :=
  match s with
  | c :: s' =>
      if c =? 46 then
        let '(m, n, r) := read_digits s' i 0%Z in
        if (n =? 0)%Z then None else Some (m, n, r)
      else Some (i, 0%Z, s)
  | [] => Some (i, 0%Z, s)
  end.

Definition parse_exponent (s : jsstring) : option (Z * jsstring) :=
  match s with
  | c :: s' =>
      if (c =? 101) || (c =? 69) then
        let '(sign, s'') :=
          match s' with
          | d :: t => if d =? 43 then (1%Z, t) else if d =? 45 then ((-1)%Z, t) else (1%Z, s')
          | [] => (1%Z, s')
          end in
        let '(x, n, r) := read_digits s'' 0%Z 0%Z in
        if (n =? 0)%Z then None else Some ((sign * x)%Z, r)
      else Some (0%Z, s)
  | [] => Some (0%Z, s)
  end.

(** A number literal: an optional minus sign, then digits with no leading
    zero, an optional fraction and an optional exponent. *)
Definition parse_unsigned (neg : bool) (s : jsstring) : option (value * jsstring) :=
  match s with
  | c :: s2 =>
      if is_digit c then
        let '(i, _, s3) := if c =? 48 then (0%Z, 1%Z, s2) else read_digits s 0%Z 0%Z in
        match parse_fraction i s3 with
        | Some (m, fcnt, s4) =>
            match parse_exponent s4 with
            | Some (ex, s5) => Some (VNum (if neg then - m else m)%Z (ex - fcnt)%Z, s5)
            | None => None
            end
        | None => None
        end
      else None
  | [] => None
  end.

Definition parse_number (s : jsstring) : option (value * jsstring) :=
  match s with
  | c :: s' => if c =? 45 then parse_unsigned true s' else parse_unsigned false s
  | [] => None
  end.

(** [strip t s]: the text after the prefix [t] of [s]. *)
Fixpoint strip (t s : jsstring) : option jsstring :=
  match t, s with
  | [], _ => Some s
  | d :: t', c :: s' => if c =? d then strip t' s' else None
  | _ :: _, [] => None
  end.

(** The members of an object literal, in the order read, become the object:
    a repeated name keeps its first place and its last value. *)
Definition object_of_members (ms : list (jsstring * value)) : list (jsstring * value) :=
  fold_left (fun o kv => set_property o (fst kv) (snd kv)) ms [].

(** The value grammar, by recursive descent.  The fuel bounds the depth of
    the calls; [JSON_parse] starts with twice the length of the text. *)
Fixpoint parse_value (fuel : nat) (s : jsstring) : option (value * jsstring) :=
  match fuel with
  | O => None
  | S fuel' =>
      match skip_ws s with
      | [] => None
      | c :: r =>
          if c =? 34 then
            match parse_string_body r with
            | Some (str, r') => Some (VStr str, r')
            | None => None
            end
          else if c =? 91 then
            match skip_ws r with
            | d :: r' =>
                if d =? 93 then Some (VArr [], r')
                else match parse_elements fuel' r with
                     | Some (l, r'') => Some (VArr l, r'')
                     | None => None
                     end
            | [] => None
            end
          else if c =? 123 then
            match skip_ws r with
            | d :: r' =>
                if d =? 125 then Some (VObj [], r')
                else match parse_members fuel' r with
                     | Some (ms, r'') => Some (VObj (object_of_members ms), r'')
                     | None => None
                     end
            | [] => None
            end
          else
            match strip t_null (c :: r), strip t_true (c :: r), strip t_false (c :: r) with
            | Some r', _, _ => Some (VNull, r')
            | _, Some r', _ => Some (VBool true, r')
            | _, _, Some r' => Some (VBool false, r')
            | None, None, None => parse_number (c :: r)
            end
      end
  end
with parse_elements (fuel : nat) (s : jsstring) : option (list value * jsstring) :=
  match fuel with
  | O => None
  | S fuel' =>
      match parse_value fuel' s with
      | Some (v, r) =>
          match skip_ws r with
          | d :: r' =>
              if d =? 44 then
                match parse_elements fuel' r' with
                | Some (l, r'') => Some (v :: l, r'')
                | None => None
                end
              else if d =? 93 then Some ([v], r')
              else None
          | [] => None
          end
      | None => None
      end
  end
with parse_members (fuel : nat) (s : jsstring)
  : option (list (jsstring * value) * jsstring) :=
  match fuel with
  | O => None
  | S fuel' =>
      match skip_ws s with
      | q :: r =>
          if q =? 34 then
            match parse_string_body r with
            | Some (k, r1) =>
                match skip_ws r1 with
                | c :: r2 =>
                    if c =? 58 then
                      match parse_value fuel' r2 with
                      | Some (v, r3) =>
                          match skip_ws r3 with
                          | d :: r4 =>
                              if d =? 44 then
                                match parse_members fuel' r4 with
                                | Some (ms, r5) => Some ((k, v) :: ms, r5)
                                | None => None
                                end
                              else if d =? 125 then Some ([(k, v)], r4)
                              else None
                          | [] => None
                          end
                      | None => None
                      end
                    else None
                | [] => None
                end
            | None => None
            end
          else None
      | [] => None
      end
  end.

(** [JSON.parse(text)]: one value, white space around it, nothing else; a
    text outside the grammar raises [SyntaxError]. *)
Definition JSON_parse (text : jsstring) : completion value :=
  match parse_value (S (2 * length text)) text with
  | Some (v, rest) =>
      match skip_ws rest with
      | [] => Normal v
      | _ :: _ => Throw SyntaxError
      end
  | None => Throw SyntaxError
  end.

Local Close Scope N_scope.

(** ** [window.localStorage] *)

(** The store maps keys to texts.  A write that would take the store over its
    quota raises [QuotaExceededError] and changes nothing; [quota = None] is
    a store without a limit. *)
Record Storage : Type := {
  items : gmap jsstring jsstring;
  quota : option nat
}.

Definition used (m : gmap jsstring jsstring) : nat :=
  map_fold (fun k v n => (length k + length v + n)%nat) 0%nat m.

(** [getItem] answers [null], here [None], for a key that is not there. *)
Definition getItem (st : Storage) (key : jsstring) : option jsstring :=
  items st !! key.

Definition setItem (st : Storage) (key text : jsstring) : completion Storage :=
  let m := <[key := text]> (items st) in
  match quota st with
  | Some q =>
      if (q <? used m)%nat then Throw QuotaExceededError
      else Normal {| items := m; quota := quota st |}
  | None => Normal {| items := m; quota := quota st |}
  end.

(** ** The hook [useLocalStorage] (App.tsx, lines 17-39) *)

(** What [console.error] has been given, oldest first. *)
Definition console := list error.

(** The [try] block of the initializer (lines 20-21).  [item ? ... : ...]
    takes the second branch for [null] and for the empty string. *)
Definition read_item (key : jsstring) (initialValue : value) (st : Storage)
  : completion value :=
  match getItem st key with
  | Some (c :: item') => JSON_parse (c :: item')
  | Some [] => Normal initialValue
  | None => Normal initialValue
  end.

(** The initial [storedValue] (lines 18-26), with what was logged. *)
Definition initial_storedValue (key : jsstring) (initialValue : value) (st : Storage)
  : value * console :=
  match read_item key initialValue st with
  | Normal v => (v, [])
  | Throw e => (initialValue, [e])
  end.

(** The argument of [setItem] is converted to a string: [undefined], which
    [JSON.stringify] answers for a value without a JSON text, is stored as
    the text [undefined]. *)
Definition storage_text (t : option jsstring) : jsstring := default t_undefined t.

(** The storage half of [setValue] (lines 29-35) for a value that is not a
    function: the store after the call and what was logged.  Its other half,
    [setStoredValue], acts on the component's state, below. *)
Definition setValue (key : jsstring) (valueToStore : value) (st : Storage)
  : Storage * console :=
  match setItem st key (storage_text (JSON_stringify valueToStore)) with
  | Normal st' => (st', [])
  | Throw e => (st, [e])
  end.

(** The hook's result (line 38): the stored value, with what the initializer
    logged, and the setter. *)
Definition useLocalStorage (key : jsstring) (initialValue : value) (st : Storage)
  : (value * console) * (value -> Storage -> Storage * console) :=
  (initial_storedValue key initialValue st, setValue key).

(** The component's use of the hook (line 56):
    [useLocalStorage<Book[]>('books', [])]. *)
Definition k_books : jsstring := Eval cbv in js "books".

Definition Load (st : Storage) : value * console :=
  fst (useLocalStorage k_books (VArr []) st).

Definition Save (C : list value) (st : Storage) : Storage * console :=
  snd (useLocalStorage k_books (VArr []) st) (VArr C) st.

(** ** The component as a state machine (App.tsx, lines 55-106)

    The hooks runtime, as far as [App] relies on it:
    - a state cell keeps what was set; setting a cell to a value that is
      [Object.is]-equal to its content changes nothing, commits nothing and
      runs no effect, any other value schedules a render;
    - [dispatch] runs the reducer on the current state, and the result is
      set as above;
    - a render runs the component function, which computes the view and
      makes the closures anew, [setValue] among them, hands the table to
      React, and is committed;
    - after a render is committed, the effect of [useEffect] runs when an
      entry of its dependency array is not [Object.is]-equal to the entry
      of the last committed render;
    - renders and effects go on until nothing is scheduled; only then is
      the next event taken.

    The renders counted here, [renders] and [Rendered] in the trace, are the
    committed ones.  Before it drops an update that sets a cell to the value
    it holds, React may call the component function once more; such a call
    commits nothing, keeps none of its closures and runs no effect, and is
    no event of the trace: the number of calls of the component function is
    not what the model tells. *)

(** An array with its identity. *)
Record array : Type := { ref : nat; elems : list value }.

Definition Object_is (a b : array) : bool := (ref a =? ref b)%nat.

Inductive event : Type :=
  | Reduced (l : list value)
  | Rendered (l : list value)
  | SaveCall (l : list value)
  | ConsoleError (e : error).

Record App : Type := {
  localStorage : Storage;
  next_ref : nat;
  storedValue : array;
  state : array;
  currentPage : Z;
  searchTerm : jsstring;
  renders : nat;
  last_deps : option (nat * nat);
  pending : bool;
  trace : list event
}.

(** The dependency array [[state, setStoredBooks]] (line 68): the identity of
    the state array and that of the [setValue] closure, which is the number
    of the render that made it. *)
Definition deps_changed (last : option (nat * nat)) (now : nat * nat) : bool :=
  match last with
  | None => true
  | Some (s, f) => negb ((s =? fst now)%nat && (f =? snd now)%nat)
  end.

(** The effect (line 67): [setStoredBooks(state)], that is [setValue(state)]:
    [setStoredValue(state)], then the write, whose failure is logged. *)
Definition setStoredBooks (app : App) : App :=
  let '(st, errs) := Save (elems (state app)) (localStorage app) in
  {| localStorage := st;
     next_ref := next_ref app;
     storedValue := if Object_is (state app) (storedValue app) then storedValue app
                    else state app;
     state := state app;
     currentPage := currentPage app;
     searchTerm := searchTerm app;
     renders := renders app;
     last_deps := last_deps app;
     pending := pending app || negb (Object_is (state app) (storedValue app));
     trace := trace app ++ SaveCall (elems (state app)) :: map ConsoleError errs |}.

(** The dependency array of the render that comes next. *)
Definition next_deps (app : App) : nat * nat := (ref (state app), S (renders app)).

(** The commit of a render: one render more, nothing scheduled, and, when
    the effect is to run, its dependency array remembered. *)
Definition commit (app : App) : App :=
  {| localStorage := localStorage app;
     next_ref := next_ref app;
     storedValue := storedValue app;
     state := state app;
     currentPage := currentPage app;
     searchTerm := searchTerm app;
     renders := S (renders app);
     last_deps := if deps_changed (last_deps app) (next_deps app)
                  then Some (next_deps app) else last_deps app;
     pending := false;
     trace := trace app ++ [Rendered (elems (state app))] |}.

(** The three state cells the events set; each schedules a render. *)
Definition set_state (l : list value) (app : App) : App :=
  {| localStorage := localStorage app;
     next_ref := S (next_ref app);
     storedValue := storedValue app;
     state := {| ref := next_ref app; elems := l |};
     currentPage := currentPage app;
     searchTerm := searchTerm app;
     renders := renders app;
     last_deps := last_deps app;
     pending := true;
     trace := trace app ++ [Reduced l] |}.

Definition setSearchTerm (term : jsstring) (app : App) : App :=
  {| localStorage := localStorage app;
     next_ref := next_ref app;
     storedValue := storedValue app;
     state := state app;
     currentPage := currentPage app;
     searchTerm := term;
     renders := renders app;
     last_deps := last_deps app;
     pending := true;
     trace := trace app |}.

Definition setCurrentPage (pageNumber : Z) (app : App) : App :=
  {| localStorage := localStorage app;
     next_ref := next_ref app;
     storedValue := storedValue app;
     state := state app;
     currentPage := pageNumber;
     searchTerm := searchTerm app;
     renders := renders app;
     last_deps := last_deps app;
     pending := true;
     trace := trace app |}.

(** The component before its first render (lines 56-59): the reducer's state
    is the very array the hook loaded, page 1, no search term. *)
Definition initial (st : Storage) (l : list value) (errs : console) : App :=
  {| localStorage := st;
     next_ref := 1;
     storedValue := {| ref := 0; elems := l |};
     state := {| ref := 0; elems := l |};
     currentPage := 1;
     searchTerm := [];
     renders := 0;
     last_deps := None;
     pending := true;
     trace := map ConsoleError errs |}.

Section Component.

Variable toLowerCase : jsstring -> jsstring.

(** One render and its commit.  What the component function throws, and
    what React throws for the table it is handed, ends the component. *)
Definition render (app : App) : completion App :=
  rs <- rows toLowerCase (elems (state app)) (searchTerm app) (currentPage app) ;;
  _ <- totalPages toLowerCase (elems (state app)) (searchTerm app) ;;
  _ <- table rs ;;
  Normal (if deps_changed (last_deps app) (next_deps app)
          then setStoredBooks (commit app)
          else commit app).

(** Renders until nothing is scheduled. *)
Fixpoint flush (fuel : nat) (app : App) : completion App :=
  match fuel with
  | O => Normal app
  | S fuel' =>
      if pending app then app' <- render app ;; flush fuel' app'
      else Normal app
  end.

(** [dispatch(action)] (line 57): a state that is the input array is no
    change, and nothing is rendered. *)
Definition dispatch (fuel : nat) (action : Action) (app : App) : completion App :=
  r <- reducer (elems (state app)) action ;;
  match r with
  | Input => Normal app
  | Fresh l => flush fuel (set_state l app)
  end.

(** [handleSearch(term)] (lines 82-84) and [paginate(pageNumber)]
    (line 106). *)
Definition handleSearch (fuel : nat) (term : jsstring) (app : App) : completion App :=
  if str_eqb term (searchTerm app) then Normal app
  else flush fuel (setSearchTerm term app).

Definition paginate (fuel : nat) (pageNumber : Z) (app : App) : completion App :=
  if (pageNumber =? currentPage app)%Z then Normal app
  else flush fuel (setCurrentPage pageNumber app).

(** The first render.  A loaded value that is not an array has no [filter]
    (line 101). *)
Definition mount (fuel : nat) (st : Storage) : completion App :=
  let '(v, errs) := Load st in
  match v with
  | VArr l => flush fuel (initial st l errs)
  | _ => Throw TypeError
  end.

(** The states of the executions that come to rest: each event is given the
    renders it asks for, one for the first render, a search or a page, two for
    an action. *)
Inductive run : App -> Prop :=
  | run_mount (st : Storage) (fuel : nat) (app : App) :
      (1 <= fuel)%nat ->
      mount fuel st = Normal app ->
      run app
  | run_dispatch (app : App) (action : Action) (fuel : nat) (app' : App) :
      run app ->
      (2 <= fuel)%nat ->
      dispatch fuel action app = Normal app' ->
      run app'
  | run_handleSearch (app : App) (term : jsstring) (fuel : nat) (app' : App) :
      run app ->
      (1 <= fuel)%nat ->
      handleSearch fuel term app = Normal app' ->
      run app'
  | run_paginate (app : App) (pageNumber : Z) (fuel : nat) (app' : App) :
      run app ->
      (1 <= fuel)%nat ->
      paginate fuel pageNumber app = Normal app' ->
      run app'.

End Component.

(** The collections handed to [setStoredBooks] in a trace, in order. *)
Definition save_calls (tr : list event) : list (list value) :=
  omap (fun ev => match ev with SaveCall l => Some l | _ => None end) tr.

(** ** The pagination controls (App.tsx, lines 153-178) *)

(** The Previous button: [paginate(currentPage > 1 ? currentPage - 1 :
    currentPage)], disabled when [currentPage === 1]. *)
Definition previous_click (currentPage : Z) : Z :=
  if 1 <? currentPage then currentPage - 1 else currentPage.

Definition previous_disabled (currentPage : Z) : bool := currentPage =? 1.

(** The Next button, with [last] the value of
    [Math.ceil(filteredBooks.length / booksPerPage)]. *)
Definition next_click (currentPage last : Z) : Z :=
  if currentPage <? last then currentPage + 1 else currentPage.

Definition next_disabled (currentPage last : Z) : bool := currentPage =? last.

(** The numbered buttons: [Array.from({ length: last }, (_, i) => i + 1)]. *)
Definition page_buttons (last : Z) : list Z :=
  map (fun i : nat => Z.of_nat i + 1) (seq 0 (Z.to_nat last)).

(** ** [setValue] with an updater (App.tsx, line 30)

    [value instanceof Function ? value(storedValue) : value]: the setter
    takes a value or a function of the stored value.  [storedValue] is the
    one of the render that made the closure.  What the function throws is
    caught with the rest. *)
Inductive setter_arg : Type :=
  | Plain (v : value)
  | Updater (f : value -> completion value).

(** The value given to [setStoredValue], if the call was reached, the store
    and what was logged. *)
Definition setValue_call (key : jsstring) (storedValue : value) (arg : setter_arg)
    (st : Storage) : option value * Storage * console :=
  match (match arg with
         | Plain v => Normal v
         | Updater f => f storedValue
         end) with
  | Normal valueToStore =>
      match setItem st key (storage_text (JSON_stringify valueToStore)) with
      | Normal st' => (Some valueToStore, st', [])
      | Throw e => (Some valueToStore, st, [e])
      end
  | Throw e => (None, st, [e])
  end.

(** ** The events of the page (App.tsx, lines 108-181)

    What the user can do: submit the form with three texts, type a search
    term, answer the prompts of a row's Edit button, press a row's Delete
    button, press Previous, Next or a numbered button.  A row exists only
    for an index of the current page, a numbered button only up to the last
    page, and a disabled button does nothing. *)
Inductive ui_event : Type :=
  | Submit (t a y : jsstring)
  | Search (term : jsstring)
  | ClickEdit (index : nat) (t a y : option jsstring)
  | ClickDelete (index : nat)
  | ClickPrevious
  | ClickNext
  | ClickPage (number : Z).

Definition is_page_button (number last : Z) : bool :=
  existsb (Z.eqb number) (page_buttons last).

Section Page.

Variable toLowerCase : jsstring -> jsstring.

Definition click (fuel : nat) (ev : ui_event) (app : App) : completion App :=
  match ev with
  | Submit t a y => dispatch toLowerCase fuel (handleSubmit t a y) app
  | Search term => handleSearch toLowerCase fuel term app
  | ClickEdit index t a y =>
      rs <- rows toLowerCase (elems (state app)) (searchTerm app) (currentPage app) ;;
      match rs !! index with
      | Some row =>
          match onEdit row t a y with
          | Some action => dispatch toLowerCase fuel action app
          | None => Normal app
          end
      | None => Normal app
      end
  | ClickDelete index =>
      rs <- rows toLowerCase (elems (state app)) (searchTerm app) (currentPage app) ;;
      match rs !! index with
      | Some row => dispatch toLowerCase fuel (onDelete row) app
      | None => Normal app
      end
  | ClickPrevious =>
      if previous_disabled (currentPage app) then Normal app
      else paginate toLowerCase fuel (previous_click (currentPage app)) app
  | ClickNext =>
      last <- totalPages toLowerCase (elems (state app)) (searchTerm app) ;;
      if next_disabled (currentPage app) last then Normal app
      else paginate toLowerCase fuel (next_click (currentPage app) last) app
  | ClickPage number =>
      last <- totalPages toLowerCase (elems (state app)) (searchTerm app) ;;
      if is_page_button number last then paginate toLowerCase fuel number app
      else Normal app
  end.

(** A sequence of events, each taken when the one before has come to rest. *)
Fixpoint clicks (fuel : nat) (evs : list ui_event) (app : App) : completion App :=
  match evs with
  | [] => Normal app
  | ev :: evs' => app' <- click fuel ev app ;; clicks fuel evs' app'
  end.

End Page.

(** ** Vocabulary of the statements *)

(** [undefined] and [null], the two values without properties. *)
Definition nullish (v : value) : bool :=
  match v with
  | VUndefined | VNull => true
  | _ => false
  end.

(** The action types the [switch] of the reducer has a [case] for. *)
Definition recognized (t : value) : bool :=
  strict_eq_str ADD_BOOK t || strict_eq_str DELETE_BOOK t || strict_eq_str EDIT_BOOK t.

(** The one way the reducer throws: an edit whose payload has no properties,
    on a collection with an element for [map] to visit. *)
Definition edit_without_payload (C : list value) (A : Action) : bool :=
  strict_eq_str EDIT_BOOK (type A) && nullish (payload A)
  && negb (Nat.eqb (length C) 0).

(** [t] occurs in [s]: some code units, then [t], then the rest. *)
Definition substring (t s : jsstring) : Prop :=
  exists pre suf : jsstring, s = pre ++ t ++ suf.

(** The JSON text of a book and of a collection of books, as the program
    writes them: [{"title":"..","author":"..","year":".."}], the books
    separated by commas, in the order of the collection. *)
Definition book_text (b : Book) : jsstring :=
  ([123; 34; 116; 105; 116; 108; 101; 34; 58; 34] ++ quote_units (title b) ++
   [34; 44; 34; 97; 117; 116; 104; 111; 114; 34; 58; 34] ++ quote_units (author b) ++
   [34; 44; 34; 121; 101; 97; 114; 34; 58; 34] ++ quote_units (year b) ++
   [34; 125])%N.

Definition books_text (C : list Book) : jsstring := join_comma (map book_text C).

Definition collection_text (C : list Book) : jsstring :=
  (91 :: books_text C ++ [93])%N.

(** Reading a loaded value as a sequence of books. *)
Definition as_books (v : value) : option (list Book) :=
  match v with
  | VArr l => mapM as_book l
  | _ => None
  end.

(** Fuel [F] is never the reason a parse succeeds: what it finds, any fuel
    from twice the number of code units read finds too. *)
Definition enough_v (F : nat) : Prop :=
  forall (s : jsstring) (v : value) (r : jsstring),
    parse_value F s = Some (v, r) ->
    (length r < length s)%nat /\
    forall f, (2 * (length s - length r) <= f + 1)%nat -> parse_value f s = Some (v, r).

Definition enough_e (F : nat) : Prop :=
  forall (s : jsstring) (l : list value) (r : jsstring),
    parse_elements F s = Some (l, r) ->
    (length r < length s)%nat /\
    forall f, (2 * (length s - length r) <= f)%nat -> parse_elements f s = Some (l, r).

Definition enough_m (F : nat) : Prop :=
  forall (s : jsstring) (ms : list (jsstring * value)) (r : jsstring),
    parse_members F s = Some (ms, r) ->
    (length r < length s)%nat /\
    forall f, (2 * (length s - length r) <= f)%nat -> parse_members f s = Some (ms, r).

(** The component at rest: nothing is scheduled, the last effect saw the
    current state and the current [setValue], the hook's cell holds the
    state array, and the allocator is ahead of it. *)
Definition settled (app : App) : Prop :=
  pending app = false /\
  last_deps app = Some (ref (state app), renders app) /\
  ref (storedValue app) = ref (state app) /\
  (ref (state app) < next_ref app)%nat.

(** What the effect of a render is about to see: it has never run, or it ran
    in a render that is past. *)
Definition effect_due (app : App) : Prop :=
  last_deps app = None \/
  exists s f : nat, last_deps app = Some (s, f) /\ (f <= renders app)%nat.

(** ** Examples to run the definitions on *)

(** The two books of the specification's scenario. *)
Definition dune : Book :=
  Eval cbv in {| title := js "Dune"; author := js "Herbert"; year := js "1965" |}.

Definition foundation : Book :=
  Eval cbv in {| title := js "Foundation"; author := js "Asimov"; year := js "1951" |}.

(** A shelf of twelve books, and six editions of one title. *)
Definition twelve : list Book := replicate 6 dune ++ replicate 6 foundation.

Definition edition (y : jsstring) : Book :=
  {| title := title dune; author := author dune; year := y |}.

Definition editions : list Book :=
  Eval cbv in
    map (fun y => edition (js y))
      ["1965"; "1966"; "1967"; "1968"; "1969"; "1970"]%string.

(** Search terms. *)
Definition t_found : jsstring := Eval cbv in js "found".
Definition t_Found : jsstring := Eval cbv in js "FOUND".

(** A store with nothing in it and no quota, and a store that holds one
    text under the key [books]. *)
Definition empty_store : Storage := {| items := ∅; quota := None |}.

Definition store_with (text : jsstring) : Storage :=
  {| items := {[ k_books := text ]}; quota := None |}.

(** Stored texts: the number [42], the object [{"pages": 412}], and the
    start of a collection, cut short: [[{"title":]. *)
Definition t_number : jsstring := Eval cbv in js "42".
Definition t_object : jsstring :=
  [123; 34; 112; 97; 103; 101; 115; 34; 58; 32; 52; 49; 50; 125]%N.
Definition t_broken : jsstring :=
  [91; 123; 34; 116; 105; 116; 108; 101; 34; 58]%N.
Definition k_pages : jsstring := Eval cbv in js "pages".

(** The component after its first render on an empty store. *)
Definition app_at_rest : App :=
  {| localStorage := store_with (collection_text []);
     next_ref := 1;
     storedValue := {| ref := 0; elems := [] |};
     state := {| ref := 0; elems := [] |};
     currentPage := 1;
     searchTerm := [];
     renders := 1;
     last_deps := Some (0%nat, 1%nat);
     pending := false;
     trace := [Rendered []; SaveCall []] |}.

(** A store with room for the key [books] and the text of the empty
    collection and for nothing more, and the component after its first
    render on it. *)
Definition small_store : Storage := {| items := ∅; quota := Some 7%nat |}.

Definition app_on_small_store : App :=
  {| localStorage := {| items := {[ k_books := collection_text [] ]};
                        quota := Some 7%nat |};
     next_ref := 1;
     storedValue := {| ref := 0; elems := [] |};
     state := {| ref := 0; elems := [] |};
     currentPage := 1;
     searchTerm := [];
     renders := 1;
     last_deps := Some (0%nat, 1%nat);
     pending := false;
     trace := [Rendered []; SaveCall []] |}.

(** The component after its first render on a store that holds the
    collection of one book. *)
Definition app_with_dune : App :=
  {| localStorage := store_with (collection_text [dune]);
     next_ref := 1;
     storedValue := {| ref := 0; elems := books_value [dune] |};
     state := {| ref := 0; elems := books_value [dune] |};
     currentPage := 1;
     searchTerm := [];
     renders := 1;
     last_deps := Some (0%nat, 1%nat);
     pending := false;
     trace := [Rendered (books_value [dune]); SaveCall (books_value [dune])] |}.

(** ** Vocabulary of the further statements *)

(** The array index a value is strictly equal to, if there is one. *)
Definition index_of_value (v : value) : option nat :=
  match v with
  | VNum m e =>
      if 0 <=? e then
        if 0 <=? m * 10 ^ e then Some (Z.to_nat (m * 10 ^ e)) else None
      else
        if (0 <=? m) && (m mod 10 ^ (- e) =? 0) then Some (Z.to_nat (m / 10 ^ (- e)))
        else None
  | _ => None
  end.

(** A value the filter can read: its [title] is a string. *)
Definition has_title (v : value) : bool :=
  match get v k_title with
  | Normal (VStr _) => true
  | _ => false
  end.

(** The page [p] of a sequence, as the view cuts it. *)
Definition page_of (fb : list value) (p : Z) : list value :=
  Array_slice fb (p * booksPerPage - booksPerPage) (p * booksPerPage).

(** The state is a collection of books. *)
Definition holds_books (app : App) : Prop :=
  exists C : list Book, elems (state app) = books_value C.

(** * Properties *)

(** ** Strings *)

Lemma str_eqb_refl (s : jsstring) : str_eqb s s = true.
Proof.
  induction s as [|c s IH]; simpl; [done|].
  by rewrite N.eqb_refl, IH.
Qed.

Lemma str_eqb_eq (s t : jsstring) : str_eqb s t = true <-> s = t.
Proof.
  split; [|intros ->; apply str_eqb_refl].
  revert t; induction s as [|c s IH]; intros [|d t]; simpl; try done.
  intros [Hc Hs]%andb_true_iff.
  apply N.eqb_eq in Hc. apply IH in Hs. by subst.
Qed.

Lemma strict_eq_str_true (s : jsstring) (v : value) :
  strict_eq_str s v = true <-> v = VStr s.
Proof.
  destruct v; simpl; try (split; [done|by inversion 1]).
  rewrite str_eqb_eq. split; [by intros ->|by inversion 1].
Qed.

(** ** The reducer *)

Section Reducer.

Implicit Types (C : list value) (p : Z) (r : value).

(** The callback of the delete branch keeps every index but [p]. *)
Lemma strict_eq_index_position (i : nat) p :
  strict_eq_index i (position p) = (p =? Z.of_nat i).
Proof. unfold strict_eq_index, position. simpl. by rewrite Z.mul_1_r. Qed.

Lemma filter_from_delete C (i : nat) p :
  filter_from i (fun _ index => Normal (negb (strict_eq_index index (position p)))) C
  = Normal (if decide (Z.of_nat i <= p) then delete (Z.to_nat (p - Z.of_nat i)) C
            else C).
Proof.
  revert i. induction C as [|x C IH]; intros i; cbn [filter_from bind].
  - by case_decide.
  - rewrite strict_eq_index_position, IH.
    destruct (Z.eqb_spec p (Z.of_nat i)) as [->|Hne]; cbn [negb].
    + rewrite Z.sub_diag. repeat case_decide; try lia. done.
    + repeat case_decide; try lia; [|done].
      replace (Z.to_nat (p - Z.of_nat i)) with (S (Z.to_nat (p - Z.of_nat (S i)))) by lia.
      done.
Qed.

Lemma get_edit_index (index book : value) :
  get (payload (handleEditBook index book)) k_index = Normal index.
Proof. reflexivity. Qed.

Lemma get_edit_book (index book : value) :
  get (payload (handleEditBook index book)) k_book = Normal book.
Proof. reflexivity. Qed.

Lemma map_from_edit C (i : nat) p r :
  map_from i
    (fun book index =>
       j <- get (payload (handleEditBook (position p) r)) k_index ;;
       if strict_eq_index index j
       then get (payload (handleEditBook (position p) r)) k_book
       else Normal book) C
  = Normal (if decide (Z.of_nat i <= p) then <[Z.to_nat (p - Z.of_nat i) := r]> C
            else C).
Proof.
  revert i. induction C as [|x C IH]; intros i.
  - simpl. by case_decide.
  - cbn [map_from]. rewrite get_edit_index, get_edit_book, IH.
    cbn [bind]. rewrite strict_eq_index_position.
    destruct (Z.eqb_spec p (Z.of_nat i)) as [->|Hne]; cbn [bind].
    + rewrite Z.sub_diag. repeat case_decide; try lia. done.
    + repeat case_decide; try lia; [|done].
      replace (Z.to_nat (p - Z.of_nat i)) with (S (Z.to_nat (p - Z.of_nat (S i)))) by lia.
      done.
Qed.

Lemma reducer_delete C p :
  reducer C (handleDeleteBook (position p))
  = Normal (Fresh (if decide (0 <= p) then delete (Z.to_nat p) C else C)).
Proof.
  unfold reducer, Array_filter.
  change (strict_eq_str ADD_BOOK (type (handleDeleteBook (position p)))) with false.
  change (strict_eq_str DELETE_BOOK (type (handleDeleteBook (position p)))) with true.
  cbv iota. change (payload (handleDeleteBook (position p))) with (position p).
  rewrite filter_from_delete. cbn.
  repeat case_decide; try lia; by rewrite ?Z.sub_0_r.
Qed.

Lemma reducer_edit C p r :
  reducer C (handleEditBook (position p) r)
  = Normal (Fresh (if decide (0 <= p) then <[Z.to_nat p := r]> C else C)).
Proof.
  unfold reducer, Array_map.
  change (strict_eq_str ADD_BOOK (type (handleEditBook (position p) r))) with false.
  change (strict_eq_str DELETE_BOOK (type (handleEditBook (position p) r))) with false.
  change (strict_eq_str EDIT_BOOK (type (handleEditBook (position p) r))) with true.
  cbv iota. rewrite map_from_edit. cbn.
  repeat case_decide; try lia; by rewrite ?Z.sub_0_r.
Qed.

End Reducer.

Lemma delete_out_of_range {A} (l : list A) (i : nat) :
  (length l <= i)%nat -> delete i l = l.
Proof.
  revert i. induction l as [|x l IH]; intros [|i] Hi; simpl in *; try done; try lia.
  f_equal. apply IH. lia.
Qed.

(** C1. For a position [p] outside [[0, len(C))] both Delete and Edit give
    back a collection with the contents of [C]; for [p] inside, Delete gives
    [C] without its element at [p], one shorter and otherwise in the same
    order, and Edit gives [C] with the element at [p] replaced by [r] and
    every other element as it was. *)
Theorem delete_edit_by_position (C : list value) (p : Z) (r : value) :
  ((p < 0 \/ Z.of_nat (length C) <= p) ->
     reducer C (handleDeleteBook (position p)) = Normal (Fresh C) /\
     reducer C (handleEditBook (position p) r) = Normal (Fresh C)) /\
  (0 <= p < Z.of_nat (length C) ->
     exists D E : list value,
       reducer C (handleDeleteBook (position p)) = Normal (Fresh D) /\
       reducer C (handleEditBook (position p) r) = Normal (Fresh E) /\
       D = take (Z.to_nat p) C ++ drop (S (Z.to_nat p)) C /\
       length D = (length C - 1)%nat /\
       (forall i : nat, (i < Z.to_nat p)%nat -> D !! i = C !! i) /\
       (forall i : nat, (Z.to_nat p <= i)%nat -> D !! i = C !! S i) /\
       length E = length C /\
       E !! Z.to_nat p = Some r /\
       (forall i : nat, i <> Z.to_nat p -> E !! i = C !! i)).
Proof.
  rewrite reducer_delete, reducer_edit. split.
  - intros Hout. case_decide as Hp; [|done].
    rewrite delete_out_of_range, list_insert_ge by lia. done.
  - intros [Hp Hlt]. case_decide; [|lia].
    exists (delete (Z.to_nat p) C), (<[Z.to_nat p := r]> C).
    repeat split.
    + apply delete_take_drop.
    + apply length_delete, lookup_lt_is_Some. lia.
    + intros i Hi. by apply list_lookup_delete_lt.
    + intros i Hi. by apply list_lookup_delete_ge.
    + apply length_insert.
    + apply list_lookup_insert_eq. lia.
    + intros i Hi. by apply list_lookup_insert_ne.
Qed.

Lemma delete_edit_by_position_witness :
  (reducer [VStr k_title; VStr k_author; VStr k_year] (handleDeleteBook (position 3))
   = Normal (Fresh [VStr k_title; VStr k_author; VStr k_year]) /\
   reducer [VStr k_title; VStr k_author; VStr k_year] (handleEditBook (position 3) VNull)
   = Normal (Fresh [VStr k_title; VStr k_author; VStr k_year])) /\
  (exists D E : list value,
     reducer [VStr k_title; VStr k_author; VStr k_year] (handleDeleteBook (position 1))
     = Normal (Fresh D) /\
     reducer [VStr k_title; VStr k_author; VStr k_year] (handleEditBook (position 1) VNull)
     = Normal (Fresh E) /\
     D = [VStr k_title; VStr k_year] /\
     length D = 2%nat /\
     (forall i : nat, (i < 1)%nat -> D !! i = [VStr k_title; VStr k_author; VStr k_year] !! i) /\
     (forall i : nat, (1 <= i)%nat -> D !! i = [VStr k_title; VStr k_author; VStr k_year] !! S i) /\
     length E = 3%nat /\
     E !! 1%nat = Some VNull /\
     (forall i : nat, i <> 1%nat -> E !! i = [VStr k_title; VStr k_author; VStr k_year] !! i)).
Proof.
  split.
  - apply (proj1 (delete_edit_by_position
                    [VStr k_title; VStr k_author; VStr k_year] 3 VNull)).
    right. simpl. lia.
  - apply (proj2 (delete_edit_by_position
                    [VStr k_title; VStr k_author; VStr k_year] 1 VNull)).
    simpl. lia.
Defined.

(** C2. Add gives, without fail, the collection [C] followed by [r]: one
    longer, [r] last, the first [len(C)] elements those of [C] in order. *)
Theorem add_appends (C : list value) (r : value) :
  exists D : list value,
    reducer C (handleAddBook r) = Normal (Fresh D) /\
    D = C ++ [r] /\
    length D = S (length C) /\
    last D = Some r /\
    take (length C) D = C.
Proof.
  exists (C ++ [r]). repeat split.
  - rewrite length_app. simpl. lia.
  - apply last_snoc.
  - apply take_app_length.
Qed.

Lemma filter_from_total (f : value -> nat -> bool) (l : list value) (i : nat) :
  exists l', filter_from i (fun x j => Normal (f x j)) l = Normal l'.
Proof.
  revert i. induction l as [|x l IH]; intros i; cbn [filter_from bind]; [by eexists|].
  destruct (IH (S i)) as [l' ->]. cbn [bind]. by eexists.
Qed.

Lemma map_from_total (f : value -> nat -> completion value) (l : list value) (i : nat) :
  (forall x j, exists y, f x j = Normal y) ->
  exists l', map_from i f l = Normal l'.
Proof.
  intros Hf. revert i. induction l as [|x l IH]; intros i; cbn [map_from]; [by eexists|].
  destruct (Hf x i) as [y ->]. destruct (IH (S i)) as [l' ->]. cbn [bind]. by eexists.
Qed.

Lemma get_not_nullish (v : value) (k : jsstring) :
  nullish v = false -> exists w, get v k = Normal w.
Proof. destruct v; simpl; try done; by eexists. Qed.

Lemma get_nullish (v : value) (k : jsstring) :
  nullish v = true -> get v k = Throw TypeError.
Proof. by destruct v. Qed.

(** C3, as the code has it.  The reducer throws in one case only, an
    [EDIT_BOOK] action whose payload is [undefined] or [null] on a collection
    that is not empty, and then it throws [TypeError]; on every other action
    it returns a collection; on an action of a type it has no [case] for it
    returns the very collection it was given. *)
Theorem reducer_total_but_edit_without_payload (C : list value) (A : Action) :
  (edit_without_payload C A = true -> reducer C A = Throw TypeError) /\
  (edit_without_payload C A = false ->
     exists r : array_result, reducer C A = Normal r) /\
  (recognized (type A) = false ->
     reducer C A = Normal Input /\ contents C Input = C).
Proof.
  destruct A as [t pl].
  unfold edit_without_payload, recognized, reducer, Array_filter, Array_map.
  cbn [type payload].
  destruct (strict_eq_str ADD_BOOK t) eqn:Hadd.
  { apply strict_eq_str_true in Hadd as ->.
    repeat split; try done. by eexists. }
  destruct (strict_eq_str DELETE_BOOK t) eqn:Hdel.
  { apply strict_eq_str_true in Hdel as ->.
    destruct (filter_from_total
                (fun _ index => negb (strict_eq_index index pl)) C 0%nat) as [l Hl].
    repeat split; try done. intros _. rewrite Hl. by eexists. }
  destruct (strict_eq_str EDIT_BOOK t) eqn:Hedit; cbn [orb andb];
    [|repeat split; try done; by eexists].
  repeat split; try done.
  - intros [Hn Hc]%andb_true_iff.
    destruct C as [|x C]; [done|].
    cbn [map_from]. by rewrite (get_nullish _ _ Hn).
  - intros Hcase. destruct C as [|x C]; [by eexists|].
    rewrite andb_true_r in Hcase.
    destruct (map_from_total
                (fun book index =>
                   i <- get pl k_index ;;
                   if strict_eq_index index i then get pl k_book
                   else Normal book) (x :: C) 0%nat) as [l ->]; [|by eexists].
    intros y j. destruct (get_not_nullish pl k_index Hcase) as [w ->].
    cbn [bind]. destruct (strict_eq_index j w); [|by eexists].
    apply get_not_nullish, Hcase.
Qed.


(** C3, as stated, fails: an edit action whose payload is [undefined], on a
    collection of one book, throws. *)
Lemma reducer_throws_on_edit_without_payload :
  reducer [book_value dune] {| type := VStr EDIT_BOOK; payload := VUndefined |}
  = Throw TypeError.
Proof. reflexivity. Qed.

Lemma reducer_total_but_edit_without_payload_witness :
  reducer [book_value dune] {| type := VStr EDIT_BOOK; payload := VNull |}
  = Throw TypeError /\
  (exists r : array_result,
     reducer [book_value dune] (handleAddBook (book_value foundation)) = Normal r) /\
  (reducer [book_value dune] {| type := VStr k_title; payload := VUndefined |}
   = Normal Input /\
   contents [book_value dune] Input = [book_value dune]).
Proof.
  split; [|split].
  - apply (proj1 (reducer_total_but_edit_without_payload
                    [book_value dune] {| type := VStr EDIT_BOOK; payload := VNull |})).
    reflexivity.
  - apply (proj1 (proj2 (reducer_total_but_edit_without_payload
                    [book_value dune] (handleAddBook (book_value foundation))))).
    reflexivity.
  - apply (proj2 (proj2 (reducer_total_but_edit_without_payload
                    [book_value dune] {| type := VStr k_title; payload := VUndefined |}))).
    reflexivity.
Defined.

(** ** The view *)

Lemma starts_with_spec (s t : jsstring) :
  starts_with s t = true <-> exists suf, s = t ++ suf.
Proof.
  revert s. induction t as [|d t IH]; intros s; simpl.
  - split; [intros _; by exists s|done].
  - destruct s as [|c s].
    + split; [done|]. by intros [suf Hs].
    + rewrite andb_true_iff, N.eqb_eq, IH. split.
      * intros [-> [suf ->]]. by exists suf.
      * intros [suf Hs]. injection Hs as -> ->. eauto.
Qed.

Lemma includes_spec (s t : jsstring) : includes s t = true <-> substring t s.
Proof.
  unfold substring. induction s as [|c s IH]; simpl.
  - rewrite orb_false_r, starts_with_spec. split.
    + intros [suf ->]. by exists [], suf.
    + intros [pre [suf Hs]]. symmetry in Hs.
      apply app_eq_nil in Hs as [-> [-> ->]%app_eq_nil]. by exists [].
  - rewrite orb_true_iff, IH, starts_with_spec. split.
    + intros [[suf ->]|[pre [suf ->]]]; [by exists [], suf|by exists (c :: pre), suf].
    + intros [[|c' pre] [suf Hs]]; simpl in Hs.
      * left. by exists suf.
      * right. injection Hs as -> ->. by exists pre, suf.
Qed.

#[global] Instance substring_dec (t s : jsstring) : Decision (substring t s).
Proof.
  destruct (includes s t) eqn:Hi.
  - left. by apply includes_spec.
  - right. intros Hs%includes_spec. congruence.
Defined.

Lemma includes_nil (s : jsstring) : includes s [] = true.
Proof. by destruct s. Qed.

Section ViewProperties.

Variable toLowerCase : jsstring -> jsstring.

Lemma filter_from_books (C : list Book) (t : jsstring) (i : nat) :
  filter_from i
    (fun book _ =>
       tt <- get book k_title ;;
       lt <- call_toLowerCase toLowerCase tt ;;
       Normal (includes lt (toLowerCase t)))
    (books_value C)
  = Normal (books_value
              (filter (fun r => substring (toLowerCase t) (toLowerCase (title r))) C)).
Proof.
  revert i. induction C as [|b C IH]; intros i; [done|].
  unfold books_value in *. cbn [map filter_from].
  rewrite filter_cons, IH.
  change (get (book_value b) k_title) with (Normal (VStr (title b))).
  cbn [bind call_toLowerCase].
  destruct (includes (toLowerCase (title b)) (toLowerCase t)) eqn:Hi.
  - rewrite decide_True by (by apply includes_spec). done.
  - rewrite decide_False; [done|]. intros Hs%includes_spec. congruence.
Qed.

(** C4. The filtered sequence is the books of [C], in their order, whose
    lower-cased title contains the lower-cased term; for the empty term, which
    lower-cases to itself, it is all of [C]. *)
Theorem filter_correct (C : list Book) (t : jsstring) :
  filteredBooks toLowerCase (books_value C) t
  = Normal (books_value
              (filter (fun r => substring (toLowerCase t) (toLowerCase (title r))) C)) /\
  (toLowerCase [] = [] ->
   filteredBooks toLowerCase (books_value C) [] = Normal (books_value C)).
Proof.
  unfold filteredBooks, Array_filter. rewrite !filter_from_books.
  split; [done|]. intros Hlow. rewrite Hlow.
  f_equal. f_equal. induction C as [|b C IH]; [done|].
  rewrite filter_cons, IH, decide_True; [done|].
  apply includes_spec, includes_nil.
Qed.

End ViewProperties.

Lemma filter_correct_witness :
  filteredBooks ascii_toLowerCase (books_value [dune; foundation]) t_found
  = Normal (books_value
              (filter (fun r => substring (ascii_toLowerCase t_found)
                                  (ascii_toLowerCase (title r))) [dune; foundation])) /\
  filteredBooks ascii_toLowerCase (books_value [dune; foundation]) []
  = Normal (books_value [dune; foundation]).
Proof.
  split.
  - apply (proj1 (filter_correct ascii_toLowerCase [dune; foundation] t_found)).
  - apply (proj2 (filter_correct ascii_toLowerCase [dune; foundation] t_found)).
    reflexivity.
Defined.

Example filter_found :
  filteredBooks ascii_toLowerCase (books_value [dune; foundation]) t_Found
  = Normal (books_value [foundation]).
Proof. reflexivity. Qed.

(** ** Pagination *)

Lemma Math_ceil_div_pos (n : Z) (d : positive) :
  Math_ceil_div n (Z.pos d) = - ((- n) / Z.pos d).
Proof.
  unfold Math_ceil_div, Qceiling, Qfloor, Qdiv, Qinv, Qmult, Qopp, inject_Z. simpl.
  by rewrite Z.mul_1_r.
Qed.

(** [Math.ceil(n / 5)] is the least number of pages of five that hold [n]. *)
Lemma Math_ceil_div_bounds (n : Z) :
  booksPerPage * (Math_ceil_div n booksPerPage - 1) < n
  <= booksPerPage * Math_ceil_div n booksPerPage.
Proof.
  unfold booksPerPage. rewrite Math_ceil_div_pos.
  pose proof (Z.div_mod (- n) 5 ltac:(lia)).
  pose proof (Z.mod_pos_bound (- n) 5 ltac:(lia)). lia.
Qed.

Lemma slice_page (l : list value) (page : Z) :
  1 <= page ->
  Array_slice l (page * 5 - 5) (page * 5)
  = take 5 (drop (Z.to_nat ((page - 1) * 5)) l).
Proof.
  intros Hp. unfold Array_slice.
  destruct (Z.ltb_spec (page * 5 - 5) 0); [lia|].
  destruct (Z.ltb_spec (page * 5) 0); [lia|].
  replace ((page - 1) * 5) with (page * 5 - 5) by lia.
  destruct (Z.le_gt_cases (Z.of_nat (length l)) (page * 5 - 5)) as [Hge|Hlt].
  - rewrite (Z.min_r (page * 5 - 5)) by lia.
    rewrite !drop_ge by lia. by rewrite !take_nil.
  - rewrite (Z.min_l (page * 5 - 5)) by lia.
    destruct (Z.le_gt_cases (page * 5) (Z.of_nat (length l))).
    + rewrite Z.min_l by lia. f_equal. lia.
    + rewrite Z.min_r by lia. rewrite !take_ge; [done|rewrite length_drop; lia..].
Qed.

Lemma lookup_page (l : list value) (k i : nat) :
  take 5 (drop k l) !! i = if decide (i < 5)%nat then l !! (k + i)%nat else None.
Proof.
  case_decide.
  - by rewrite lookup_take_lt, lookup_drop.
  - apply lookup_take_ge. lia.
Qed.

Section Pagination.

Variable toLowerCase : jsstring -> jsstring.

Lemma currentBooks_page (state : list value) (term : jsstring) (fb : list value)
    (page : Z) :
  filteredBooks toLowerCase state term = Normal fb ->
  1 <= page ->
  currentBooks toLowerCase state term page
  = Normal (take 5 (drop (Z.to_nat ((page - 1) * 5)) fb)).
Proof.
  intros Hfb Hp. unfold currentBooks. rewrite Hfb. cbn [bind].
  unfold indexOfFirstBook, indexOfLastBook, booksPerPage. by rewrite slice_page.
Qed.

(** C5. For a page number from 1 on, the view shows the window
    [[(pageNumber-1)*5, pageNumber*5)] of the filtered sequence, which is
    empty, and no error, when it starts at or beyond the end; the number of
    pages is the ceiling of the filtered count over 5, so 0 for none; and for
    twelve filtered books there are 3 pages, page 1 has 5 books, page 3 has
    2, page 4 has none. *)
Theorem pagination_window (state : list value) (term : jsstring) (fb : list value)
    (pageNumber : Z) :
  filteredBooks toLowerCase state term = Normal fb ->
  1 <= pageNumber ->
  exists (w : list value) (tp : Z),
    currentBooks toLowerCase state term pageNumber = Normal w /\
    totalPages toLowerCase state term = Normal tp /\
    (forall i : nat,
       w !! i = if decide (i < 5)%nat
                then fb !! (Z.to_nat ((pageNumber - 1) * booksPerPage) + i)%nat
                else None) /\
    (Z.of_nat (length fb) <= (pageNumber - 1) * booksPerPage -> w = []) /\
    booksPerPage * (tp - 1) < Z.of_nat (length fb) <= booksPerPage * tp /\
    (length fb = 0%nat -> tp = 0) /\
    (length fb = 12%nat ->
       tp = 3 /\
       exists w1 w3 : list value,
         currentBooks toLowerCase state term 1 = Normal w1 /\ length w1 = 5%nat /\
         currentBooks toLowerCase state term 3 = Normal w3 /\ length w3 = 2%nat /\
         currentBooks toLowerCase state term 4 = Normal []).
Proof.
  intros Hfb Hp.
  exists (take 5 (drop (Z.to_nat ((pageNumber - 1) * 5)) fb)),
         (Math_ceil_div (Z.of_nat (length fb)) booksPerPage).
  pose proof (Math_ceil_div_bounds (Z.of_nat (length fb))) as Hb.
  split; [by apply currentBooks_page|].
  split; [unfold totalPages; by rewrite Hfb|].
  split; [intros i; apply lookup_page|].
  split; [intros Hge; unfold booksPerPage in Hge; rewrite drop_ge by lia; apply take_nil|].
  split; [done|].
  split; [unfold booksPerPage in *; lia|].
  intros H12. split; [unfold booksPerPage in *; lia|].
  exists (take 5 (drop (Z.to_nat ((1 - 1) * 5)) fb)),
         (take 5 (drop (Z.to_nat ((3 - 1) * 5)) fb)).
  rewrite !(currentBooks_page state term fb) by (done || lia).
  rewrite !length_take, !length_drop, H12.
  repeat split; try done.
  f_equal. rewrite drop_ge by (rewrite H12; lia). apply take_nil.
Qed.

End Pagination.

Lemma pagination_window_witness :
  exists (w : list value) (tp : Z),
    currentBooks ascii_toLowerCase (books_value twelve) [] 3 = Normal w /\
    totalPages ascii_toLowerCase (books_value twelve) [] = Normal tp /\
    (forall i : nat,
       w !! i = if decide (i < 5)%nat
                then books_value twelve !! (Z.to_nat ((3 - 1) * booksPerPage) + i)%nat
                else None) /\
    (Z.of_nat (length (books_value twelve)) <= (3 - 1) * booksPerPage -> w = []) /\
    booksPerPage * (tp - 1) < Z.of_nat (length (books_value twelve)) <= booksPerPage * tp /\
    (length (books_value twelve) = 0%nat -> tp = 0) /\
    (length (books_value twelve) = 12%nat ->
       tp = 3 /\
       exists w1 w3 : list value,
         currentBooks ascii_toLowerCase (books_value twelve) [] 1 = Normal w1 /\
         length w1 = 5%nat /\
         currentBooks ascii_toLowerCase (books_value twelve) [] 3 = Normal w3 /\
         length w3 = 2%nat /\
         currentBooks ascii_toLowerCase (books_value twelve) [] 4 = Normal []).
Proof.
  apply (pagination_window ascii_toLowerCase (books_value twelve) []
           (books_value twelve) 3).
  - reflexivity.
  - lia.
Defined.

(** ** JSON: what [JSON.stringify] writes, [JSON.parse] reads back *)

Section Json.

Local Open Scope N_scope.

Lemma hex_value_digit (d : N) : d < 16 -> hex_value (hex_digit d) = Some d.
Proof.
  intros Hd. unfold hex_value, hex_digit.
  destruct (N.ltb_spec d 10).
  - replace ((48 <=? 48 + d) && (48 + d <=? 57)) with true.
    + f_equal. lia.
    + symmetry. apply andb_true_iff. split; apply N.leb_le; lia.
  - replace ((48 <=? 87 + d) && (87 + d <=? 57)) with false.
    2:{ symmetry. apply andb_false_iff. right. apply N.leb_gt. lia. }
    replace ((65 <=? 87 + d) && (87 + d <=? 70)) with false.
    2:{ symmetry. apply andb_false_iff. right. apply N.leb_gt. lia. }
    replace ((97 <=? 87 + d) && (87 + d <=? 102)) with true.
    + f_equal. lia.
    + symmetry. apply andb_true_iff. split; apply N.leb_le; lia.
Qed.

Lemma hex4_digits (c : N) :
  c < 65536 ->
  hex4 (hex_digit (c / 4096 mod 16)) (hex_digit (c / 256 mod 16))
       (hex_digit (c / 16 mod 16)) (hex_digit (c mod 16)) = Some c.
Proof.
  intros Hc. unfold hex4.
  rewrite !hex_value_digit by (apply N.mod_lt; lia).
  f_equal. zify. Z.to_euclidean_division_equations. lia.
Qed.

Lemma parse_unicode_escape (c : N) (s : jsstring) :
  c < 65536 ->
  parse_string_body (unicode_escape c ++ s) = prepend c (parse_string_body s).
Proof.
  intros Hc. unfold unicode_escape.
  cbn [app parse_string_body N.eqb Pos.eqb].
  by rewrite hex4_digits.
Qed.

Lemma parse_raw (c : N) (s : jsstring) :
  c <> 34 -> c <> 92 -> 32 <= c ->
  parse_string_body (c :: s) = prepend c (parse_string_body s).
Proof.
  intros H1 H2 H3. cbn [parse_string_body].
  destruct (N.eqb_spec c 34); [done|].
  destruct (N.eqb_spec c 92); [done|].
  destruct (N.ltb_spec c 32); [lia|done].
Qed.

Lemma surrogate_bounds (c : N) :
  is_high_surrogate c || is_low_surrogate c = true -> 55296 <= c /\ c <= 57343.
Proof.
  unfold is_high_surrogate, is_low_surrogate.
  rewrite orb_true_iff, !andb_true_iff, !N.leb_le. lia.
Qed.

(** A quoted string reads back as the string, whatever its code units.  The
    induction is on a bound of the length: a surrogate pair takes two code
    units in one step. *)
Lemma parse_quoted_bounded (n : nat) (s rest : jsstring) :
  (length s <= n)%nat ->
  parse_string_body (quote_units s ++ 34 :: rest) = Some (s, rest).
Proof.
  revert s. induction n as [|n IH]; intros [|c s] Hn; simpl in Hn; try lia; try done.
  cbn [quote_units].
  assert (Hs : parse_string_body (quote_units s ++ 34 :: rest) = Some (s, rest))
    by (apply IH; lia).
  destruct (N.eqb_spec c 8) as [->|]; [cbn; by rewrite Hs|].
  destruct (N.eqb_spec c 9) as [->|]; [cbn; by rewrite Hs|].
  destruct (N.eqb_spec c 10) as [->|]; [cbn; by rewrite Hs|].
  destruct (N.eqb_spec c 12) as [->|]; [cbn; by rewrite Hs|].
  destruct (N.eqb_spec c 13) as [->|]; [cbn; by rewrite Hs|].
  destruct (N.eqb_spec c 34) as [->|]; [cbn; by rewrite Hs|].
  destruct (N.eqb_spec c 92) as [->|]; [cbn; by rewrite Hs|].
  destruct (N.ltb_spec c 32).
  { rewrite <- app_assoc, parse_unicode_escape by lia. by rewrite Hs. }
  destruct (is_high_surrogate c) eqn:Hhi.
  { pose proof (surrogate_bounds c) as Hb. rewrite Hhi in Hb.
    destruct s as [|d s].
    - rewrite parse_unicode_escape by (cbn in Hb; lia). done.
    - destruct (is_low_surrogate d) eqn:Hlo.
      + pose proof (surrogate_bounds d) as Hd. rewrite Hlo, orb_true_r in Hd.
        cbn [app]. rewrite !parse_raw by lia.
        rewrite IH by (simpl in Hn; lia). done.
      + rewrite <- app_assoc, parse_unicode_escape by (cbn in Hb; lia).
        by rewrite Hs. }
  destruct (is_low_surrogate c) eqn:Hlo.
  { pose proof (surrogate_bounds c) as Hb. rewrite Hlo, orb_true_r in Hb.
    rewrite <- app_assoc, parse_unicode_escape by lia. by rewrite Hs. }
  cbn [app]. rewrite parse_raw by lia. by rewrite Hs.
Qed.

Lemma parse_quoted (s rest : jsstring) :
  parse_string_body (quote_units s ++ 34 :: rest) = Some (s, rest).
Proof. by apply (parse_quoted_bounded (length s)). Qed.

Lemma serialize_book (b : Book) : serialize (book_value b) = Some (book_text b).
Proof.
  unfold book_text, book_value. cbn. unfold QuoteJSONString.
  repeat (rewrite <- ?app_assoc; cbn [app]). reflexivity.
Qed.

Lemma parse_book (b : Book) (fuel : nat) (rest : jsstring) :
  parse_value (5 + fuel) (book_text b ++ rest) = Some (book_value b, rest).
Proof.
  unfold book_text.
  repeat (rewrite <- ?app_assoc; cbn [app]).
  cbn [Nat.add].
  do 3 (cbn -[quote_units]; rewrite parse_quoted).
  cbn -[quote_units]. destruct b; reflexivity.
Qed.

Lemma serialize_books (C : list Book) :
  serialize (VArr (books_value C)) = Some (collection_text C).
Proof.
  unfold collection_text, books_text, books_value. cbn [serialize]. rewrite map_map.
  do 4 f_equal. apply map_ext. intros b.
  change ((fix serialize (v : value) : option jsstring := _) (book_value b))
    with (serialize (book_value b)).
  by rewrite serialize_book.
Qed.

Lemma parse_books (C : list Book) (b : Book) (fuel : nat) (rest : jsstring) :
  parse_elements (6 + length C + fuel) (books_text (b :: C) ++ 93 :: rest)
  = Some (books_value (b :: C), rest).
Proof.
  revert b. induction C as [|b' C IH]; intros b.
  - unfold books_text. cbn [map join_comma length Nat.add parse_elements].
    rewrite (parse_book b fuel). reflexivity.
  - unfold books_text in *. cbn [map join_comma length Nat.add parse_elements] in *.
    rewrite <- app_assoc. cbn [app].
    rewrite (parse_book b (S (length C + fuel))).
    cbn [skip_ws is_ws N.eqb Pos.eqb orb].
    specialize (IH b'). cbn [map] in IH. rewrite IH. reflexivity.
Qed.

Lemma books_text_head (b : Book) (C : list Book) (r : jsstring) :
  exists tl, books_text (b :: C) ++ r = 123 :: tl.
Proof.
  unfold books_text. destruct C as [|b' C]; cbn [map join_comma];
    unfold book_text at 1; cbn [app]; by eexists.
Qed.

Lemma length_books_text (C : list Book) : (length C <= length (books_text C))%nat.
Proof.
  unfold books_text. induction C as [|b C IH]; [done|].
  destruct C as [|b' C].
  - unfold book_text. cbn. lia.
  - cbn [map join_comma] in *. rewrite length_app. cbn [length] in *.
    unfold book_text at 1. cbn [app length]. lia.
Qed.

(** The fuel [JSON_parse] takes is enough for the text of any collection. *)
Lemma JSON_parse_books (C : list Book) :
  JSON_parse (collection_text C) = Normal (VArr (books_value C)).
Proof.
  unfold JSON_parse, collection_text. destruct C as [|b C].
  - reflexivity.
  - pose proof (length_books_text (b :: C)) as Hlen.
    set (text := 91 :: books_text (b :: C) ++ [93]).
    assert (Hfuel : exists fuel, (2 * length text = 6 + length C + fuel)%nat).
    { exists (2 * length text - 6 - length C)%nat. subst text.
      cbn [length] in *. rewrite length_app. cbn [length]. lia. }
    destruct Hfuel as [fuel ->]. subst text.
    destruct (books_text_head b C [93]) as [tl Htl].
    cbn [parse_value skip_ws is_ws N.eqb Pos.eqb orb].
    rewrite Htl. cbn [skip_ws is_ws N.eqb Pos.eqb orb]. rewrite <- Htl.
    rewrite parse_books. reflexivity.
Qed.

End Json.

(** ** The fuel of the parser

    [JSON_parse] starts the descent with twice the length of the text and
    one.  No text needs more: a parse that succeeds with some fuel succeeds
    with that much, so [SyntaxError] is never for want of fuel. *)

Section JsonFuel.

Local Open Scope nat_scope.

Lemma skip_ws_length (s : jsstring) : length (skip_ws s) <= length s.
Proof.
  induction s as [|c s IH]; simpl; [done|]. destruct (is_ws c); simpl; lia.
Qed.

Lemma prepend_length (c : N) (o : option (jsstring * jsstring)) (x r : jsstring) :
  prepend c o = Some (x, r) -> exists x', o = Some (x', r).
Proof. destruct o as [[x' r']|]; simpl; [|done]. intros [= <- <-]. by eexists. Qed.

Lemma parse_string_body_length_bounded (n : nat) (s x r : jsstring) :
  length s <= n -> parse_string_body s = Some (x, r) -> length r < length s.
Proof.
  revert s x r. induction n as [|n IH]; intros [|c s] x r Hn; simpl in Hn; try lia; try done.
  cbn [parse_string_body].
  destruct (c =? 34)%N; [intros [= <- <-]; simpl; lia|].
  destruct (c =? 92)%N.
  - destruct s as [|e s]; [done|].
    destruct (e =? 117)%N.
    + destruct s as [|h1 [|h2 [|h3 [|h4 s]]]]; try done.
      destruct (hex4 h1 h2 h3 h4); [|done].
      intros [x' H]%prepend_length. apply IH in H; simpl in *; lia.
    + destruct (simple_escape e); [|done].
      intros [x' H]%prepend_length. apply IH in H; simpl in *; lia.
  - destruct (c <? 32)%N; [done|].
    intros [x' H]%prepend_length. apply IH in H; simpl in *; lia.
Qed.

Lemma parse_string_body_length (s x r : jsstring) :
  parse_string_body s = Some (x, r) -> length r < length s.
Proof. by apply (parse_string_body_length_bounded (length s)). Qed.

Lemma strip_length (t s r : jsstring) :
  strip t s = Some r -> length r + length t = length s.
Proof.
  revert s. induction t as [|d t IH]; intros s; simpl.
  - intros [= ->]. lia.
  - destruct s as [|c s]; [done|]. destruct (c =? d)%N; [|done].
    intros H%IH. simpl. lia.
Qed.

Lemma read_digits_length (s : jsstring) (acc cnt : Z) :
  length (read_digits s acc cnt).2 <= length s.
Proof.
  revert acc cnt. induction s as [|c s IH]; intros acc cnt; simpl; [done|].
  destruct (is_digit c); simpl; [|done]. specialize (IH (acc * 10 + Z.of_N (c - 48))%Z (cnt + 1)%Z). lia.
Qed.

Lemma parse_fraction_length (i : Z) (s : jsstring) (m n : Z) (r : jsstring) :
  parse_fraction i s = Some (m, n, r) -> length r <= length s.
Proof.
  unfold parse_fraction. destruct s as [|c s]; [by intros [= <- <- <-]|].
  destruct (c =? 46)%N; [|by intros [= <- <- <-]].
  pose proof (read_digits_length s i 0) as H.
  destruct (read_digits s i 0) as [[m' n'] r']. destruct (n' =? 0)%Z; [done|].
  intros [= <- <- <-]. simpl in *. lia.
Qed.

Lemma parse_exponent_length (s : jsstring) (x : Z) (r : jsstring) :
  parse_exponent s = Some (x, r) -> length r <= length s.
Proof.
  unfold parse_exponent. destruct s as [|c s]; [by intros [= <- <-]|].
  destruct ((c =? 101)%N || (c =? 69)%N); [|by intros [= <- <-]].
  destruct s as [|d t].
  - simpl. done.
  - destruct (d =? 43)%N; [|destruct (d =? 45)%N].
    + pose proof (read_digits_length t 0 0) as H.
      destruct (read_digits t 0 0) as [[m' n'] r']. destruct (n' =? 0)%Z; [done|].
      intros [= <- <-]. simpl in *. lia.
    + pose proof (read_digits_length t 0 0) as H.
      destruct (read_digits t 0 0) as [[m' n'] r']. destruct (n' =? 0)%Z; [done|].
      intros [= <- <-]. simpl in *. lia.
    + pose proof (read_digits_length (d :: t) 0 0) as H.
      destruct (read_digits (d :: t) 0 0) as [[m' n'] r']. destruct (n' =? 0)%Z; [done|].
      intros [= <- <-]. simpl in *. lia.
Qed.

Lemma parse_unsigned_length (neg : bool) (s : jsstring) (v : value) (r : jsstring) :
  parse_unsigned neg s = Some (v, r) -> length r < length s.
Proof.
  unfold parse_unsigned. destruct s as [|c s2]; [done|].
  destruct (is_digit c) eqn:Hd; [|done].
  assert (Hs3 : length (if (c =? 48)%N then (0%Z, 1%Z, s2)
                        else read_digits (c :: s2) 0 0).2 <= length s2).
  { destruct (c =? 48)%N; [done|]. simpl. rewrite Hd. apply read_digits_length. }
  destruct (if (c =? 48)%N then _ else _) as [[i n] s3].
  destruct (parse_fraction i s3) as [[[m fcnt] s4]|] eqn:Hf; [|done].
  destruct (parse_exponent s4) as [[ex s5]|] eqn:He; [|done].
  apply parse_fraction_length in Hf. apply parse_exponent_length in He.
  intros [= <- <-]. simpl in *. lia.
Qed.

Lemma parse_number_length (s : jsstring) (v : value) (r : jsstring) :
  parse_number s = Some (v, r) -> length r < length s.
Proof.
  unfold parse_number. destruct s as [|c s']; [done|].
  destruct (c =? 45)%N.
  - intros H%parse_unsigned_length. simpl. lia.
  - apply parse_unsigned_length.
Qed.

Lemma enough_value_step (F : nat) : enough_e F -> enough_m F -> enough_v (S F).
Proof.
  intros IHe IHm s v r H. cbn [parse_value] in H.
  pose proof (skip_ws_length s) as Hs.
  destruct (skip_ws s) as [|c r0] eqn:Hws; [done|]. cbn [length] in Hs.
  destruct (c =? 34)%N eqn:H34.
  { destruct (parse_string_body r0) as [[str r']|] eqn:Hb; [|done].
    injection H as <- <-. apply parse_string_body_length in Hb as Hlen.
    split; [lia|]. intros [|f] Hf; [lia|].
    cbn [parse_value]. by rewrite Hws, H34, Hb. }
  destruct (c =? 91)%N eqn:H91.
  { pose proof (skip_ws_length r0) as Hr0.
    destruct (skip_ws r0) as [|d r1] eqn:Hws2; [done|]. cbn [length] in Hr0.
    destruct (d =? 93)%N eqn:H93.
    - injection H as <- <-. split; [lia|]. intros [|f] Hf; [lia|].
      cbn [parse_value]. by rewrite Hws, H34, H91, Hws2, H93.
    - destruct (parse_elements F r0) as [[l r'']|] eqn:He; [|done].
      injection H as <- <-. destruct (IHe _ _ _ He) as [Hlen Hfuel].
      split; [lia|]. intros [|f] Hf; [lia|].
      cbn [parse_value]. rewrite Hws, H34, H91, Hws2, H93, Hfuel by lia. done. }
  destruct (c =? 123)%N eqn:H123.
  { pose proof (skip_ws_length r0) as Hr0.
    destruct (skip_ws r0) as [|d r1] eqn:Hws2; [done|]. cbn [length] in Hr0.
    destruct (d =? 125)%N eqn:H125.
    - injection H as <- <-. split; [lia|]. intros [|f] Hf; [lia|].
      cbn [parse_value]. by rewrite Hws, H34, H91, H123, Hws2, H125.
    - destruct (parse_members F r0) as [[ms r'']|] eqn:Hm; [|done].
      injection H as <- <-. destruct (IHm _ _ _ Hm) as [Hlen Hfuel].
      split; [lia|]. intros [|f] Hf; [lia|].
      cbn [parse_value]. rewrite Hws, H34, H91, H123, Hws2, H125, Hfuel by lia. done. }
  assert (Hlen : length r < S (length r0)).
  { destruct (strip t_null (c :: r0)) as [r1|] eqn:H1.
    { injection H as <- <-. apply strip_length in H1. simpl in H1. lia. }
    destruct (strip t_true (c :: r0)) as [r2|] eqn:H2.
    { injection H as <- <-. apply strip_length in H2. simpl in H2. lia. }
    destruct (strip t_false (c :: r0)) as [r3|] eqn:H3.
    { injection H as <- <-. apply strip_length in H3. simpl in H3. lia. }
    apply parse_number_length in H. simpl in H. lia. }
  split; [lia|]. intros [|f] Hf; [lia|].
  cbn [parse_value]. by rewrite Hws, H34, H91, H123.
Qed.

Lemma enough_elements_step (F : nat) : enough_v F -> enough_e F -> enough_e (S F).
Proof.
  intros IHv IHe s l r H. cbn [parse_elements] in H.
  destruct (parse_value F s) as [[v r1]|] eqn:Hv; [|done].
  destruct (IHv _ _ _ Hv) as [Hlen1 Hfuel1].
  pose proof (skip_ws_length r1) as Hr1.
  destruct (skip_ws r1) as [|d r2] eqn:Hws; [done|]. cbn [length] in Hr1.
  destruct (d =? 44)%N eqn:H44.
  - destruct (parse_elements F r2) as [[l' r3]|] eqn:He; [|done].
    injection H as <- <-. destruct (IHe _ _ _ He) as [Hlen2 Hfuel2].
    split; [lia|]. intros [|f] Hf; [lia|].
    cbn [parse_elements]. rewrite Hfuel1 by lia. rewrite Hws, H44, Hfuel2 by lia. done.
  - destruct (d =? 93)%N eqn:H93; [|done].
    injection H as <- <-. split; [lia|]. intros [|f] Hf; [lia|].
    cbn [parse_elements]. rewrite Hfuel1 by lia. by rewrite Hws, H44, H93.
Qed.

Lemma enough_members_step (F : nat) : enough_v F -> enough_m F -> enough_m (S F).
Proof.
  intros IHv IHm s ms r H. cbn [parse_members] in H.
  pose proof (skip_ws_length s) as Hs.
  destruct (skip_ws s) as [|q r0] eqn:Hws; [done|]. cbn [length] in Hs.
  destruct (q =? 34)%N eqn:H34; [|done].
  destruct (parse_string_body r0) as [[k r1]|] eqn:Hb; [|done].
  apply parse_string_body_length in Hb as Hlen0.
  pose proof (skip_ws_length r1) as Hr1.
  destruct (skip_ws r1) as [|c r2] eqn:Hws1; [done|]. cbn [length] in Hr1.
  destruct (c =? 58)%N eqn:H58; [|done].
  destruct (parse_value F r2) as [[v r3]|] eqn:Hv; [|done].
  destruct (IHv _ _ _ Hv) as [Hlen1 Hfuel1].
  pose proof (skip_ws_length r3) as Hr3.
  destruct (skip_ws r3) as [|d r4] eqn:Hws3; [done|]. cbn [length] in Hr3.
  destruct (d =? 44)%N eqn:H44.
  - destruct (parse_members F r4) as [[ms' r5]|] eqn:Hm; [|done].
    injection H as <- <-. destruct (IHm _ _ _ Hm) as [Hlen2 Hfuel2].
    split; [lia|]. intros [|f] Hf; [lia|].
    cbn [parse_members]. rewrite Hws, H34, Hb, Hws1, H58, Hfuel1 by lia.
    rewrite Hws3, H44, Hfuel2 by lia. done.
  - destruct (d =? 125)%N eqn:H125; [|done].
    injection H as <- <-. split; [lia|]. intros [|f] Hf; [lia|].
    cbn [parse_members]. rewrite Hws, H34, Hb, Hws1, H58, Hfuel1 by lia.
    by rewrite Hws3, H44, H125.
Qed.

Lemma fuel_enough (F : nat) : enough_v F /\ enough_e F /\ enough_m F.
Proof.
  induction F as [|F (IHv & IHe & IHm)].
  - by repeat split.
  - split; [by apply enough_value_step|].
    split; [by apply enough_elements_step|by apply enough_members_step].
Qed.

Lemma JSON_parse_fuel (text : jsstring) (F : nat) (v : value) (r : jsstring) :
  parse_value F text = Some (v, r) ->
  parse_value (S (2 * length text)) text = Some (v, r).
Proof.
  intros H. destruct (fuel_enough F) as [Hv _].
  destruct (Hv _ _ _ H) as [_ Hfuel]. apply Hfuel. lia.
Qed.

(** A text that [JSON_parse] rejects has, for any fuel, no value followed
    only by white space. *)
Lemma JSON_parse_SyntaxError (text : jsstring) (e : error) :
  JSON_parse text = Throw e ->
  e = SyntaxError /\
  forall (F : nat) (v : value) (r : jsstring),
    parse_value F text = Some (v, r) -> skip_ws r <> [].
Proof.
  unfold JSON_parse. intros H. split.
  - destruct (parse_value _ _) as [[v r]|]; [destruct (skip_ws r)|]; congruence.
  - intros F v r HF. rewrite (JSON_parse_fuel _ _ _ _ HF) in H.
    by destruct (skip_ws r).
Qed.

End JsonFuel.

Lemma as_book_value (b : Book) : as_book (book_value b) = Some b.
Proof. by destruct b. Qed.

Lemma as_books_value (C : list Book) : as_books (VArr (books_value C)) = Some C.
Proof.
  unfold as_books, books_value. apply mapM_Some_2.
  induction C as [|b C IH]; constructor; [apply as_book_value|done].
Qed.

Lemma books_value_inj (C C' : list Book) : books_value C = books_value C' -> C = C'.
Proof.
  intros H. apply (f_equal (fun l => as_books (VArr l))) in H.
  rewrite !as_books_value in H. by injection H.
Qed.

(** ** The hook *)

Lemma getItem_setItem (st st' : Storage) (key text : jsstring) :
  setItem st key text = Normal st' -> getItem st' key = Some text.
Proof.
  unfold setItem, getItem. intros H.
  destruct (quota st) as [q|]; [destruct (q <? used _)%nat; [done|]|];
    injection H as <-; apply lookup_insert_eq.
Qed.

Lemma Save_accepted (l : list value) (st st' : Storage) :
  Save l st = (st', []) ->
  setItem st k_books (storage_text (JSON_stringify (VArr l))) = Normal st'.
Proof.
  unfold Save, useLocalStorage, setValue; cbn [snd].
  destruct (setItem _ _ _); [|done]. by intros [= ->].
Qed.

(** A store without a quota takes every write. *)
Lemma Save_without_quota (l : list value) (st : Storage) :
  quota st = None -> exists st', Save l st = (st', []).
Proof.
  unfold Save, useLocalStorage, setValue, setItem; cbn [snd]. intros ->. by eexists.
Qed.

Lemma Load_text (st : Storage) (c : N) (s : jsstring) :
  getItem st k_books = Some (c :: s) ->
  Load st = match JSON_parse (c :: s) with
            | Normal v => (v, [])
            | Throw e => (VArr [], [e])
            end.
Proof. unfold Load, useLocalStorage, initial_storedValue, read_item; cbn [fst]. by intros ->. Qed.

Lemma Load_collection_text (st : Storage) (C : list Book) :
  getItem st k_books = Some (collection_text C) ->
  Load st = (VArr (books_value C), []).
Proof.
  intros H. pose proof (JSON_parse_books C) as Hp.
  unfold collection_text in *. by rewrite (Load_text _ _ _ H), Hp.
Qed.

(** A write over the quota is refused: the store stays as it was and the
    error is logged. *)
Example Save_over_quota :
  Save (books_value [dune]) {| items := ∅; quota := Some 10%nat |}
  = ({| items := ∅; quota := Some 10%nat |}, [QuotaExceededError]).
Proof. reflexivity. Qed.

(** C6, as stated, fails: the store can refuse the write, and [setValue]
    catches that.  On a store with no room for it, saving the collection of
    one book logs the error and stores nothing, and loading gives the empty
    collection, not the book. *)
Lemma refused_save_does_not_round_trip :
  Save (books_value [dune]) small_store = (small_store, [QuotaExceededError]) /\
  Load (fst (Save (books_value [dune]) small_store)) = (VArr [], []) /\
  as_books (fst (Load (fst (Save (books_value [dune]) small_store)))) <> Some [dune].
Proof.
  assert (Hsave : Save (books_value [dune]) small_store
                  = (small_store, [QuotaExceededError])) by reflexivity.
  assert (Hload : Load small_store = (VArr [], [])) by reflexivity.
  rewrite Hsave. cbn [fst]. rewrite Hload. cbn [fst].
  split; [done|]. split; [done|]. discriminate.
Qed.

(** C6, as the code has it.  Whether a collection is saved is the store's
    answer to [setItem] with the key [books] and the JSON array of the
    [{title, author, year}] objects in order.  When the store takes the
    write, which a store without a quota always does and a store with a
    quota does when the text fits, Save logs nothing, that text is what is
    stored, and loading gives back that very collection, every book and
    every field as it was.  When the store refuses, Save logs the error and
    leaves the store as it was, so that loading gives what it gave
    before. *)
Theorem persistence_round_trip (C : list Book) (st : Storage) :
  (forall st' : Storage,
     setItem st k_books (collection_text C) = Normal st' ->
     Save (books_value C) st = (st', []) /\
     getItem st' k_books = Some (collection_text C) /\
     Load st' = (VArr (books_value C), []) /\
     as_books (fst (Load st')) = Some C) /\
  (forall e : error,
     setItem st k_books (collection_text C) = Throw e ->
     Save (books_value C) st = (st, [e]) /\
     Load (fst (Save (books_value C) st)) = Load st) /\
  (quota st = None ->
   exists st' : Storage, setItem st k_books (collection_text C) = Normal st') /\
  (forall q : nat,
     quota st = Some q ->
     (used (<[k_books := collection_text C]> (items st)) <= q)%nat ->
     exists st' : Storage, setItem st k_books (collection_text C) = Normal st').
Proof.
  assert (Htext : storage_text (JSON_stringify (VArr (books_value C))) = collection_text C).
  { unfold JSON_stringify. by rewrite serialize_books. }
  split; [|split; [|split]].
  - intros st' Hset.
    assert (Hsave : Save (books_value C) st = (st', [])).
    { unfold Save, useLocalStorage, setValue; cbn [snd]. by rewrite Htext, Hset. }
    split; [done|]. apply getItem_setItem in Hset.
    split; [done|]. rewrite (Load_collection_text _ _ Hset).
    split; [done|]. apply as_books_value.
  - intros e Hset.
    assert (Hsave : Save (books_value C) st = (st, [e])).
    { unfold Save, useLocalStorage, setValue; cbn [snd]. by rewrite Htext, Hset. }
    by rewrite Hsave.
  - unfold setItem. intros ->. by eexists.
  - unfold setItem. intros q -> Hq.
    destruct (Nat.ltb_spec q (used (<[k_books:=collection_text C]> (items st))));
      [lia|by eexists].
Qed.

Lemma persistence_round_trip_witness :
  (Save (books_value [dune; foundation]) empty_store
   = (store_with (collection_text [dune; foundation]), []) /\
   getItem (store_with (collection_text [dune; foundation])) k_books
   = Some (collection_text [dune; foundation]) /\
   Load (store_with (collection_text [dune; foundation]))
   = (VArr (books_value [dune; foundation]), []) /\
   as_books (fst (Load (store_with (collection_text [dune; foundation]))))
   = Some [dune; foundation]) /\
  (Save (books_value [dune]) small_store = (small_store, [QuotaExceededError]) /\
   Load (fst (Save (books_value [dune]) small_store)) = Load small_store) /\
  (exists st' : Storage,
     setItem empty_store k_books (collection_text [dune]) = Normal st') /\
  (exists st' : Storage,
     setItem small_store k_books (collection_text []) = Normal st').
Proof.
  split; [|split; [|split]].
  - apply (proj1 (persistence_round_trip [dune; foundation] empty_store)).
    reflexivity.
  - apply (proj1 (proj2 (persistence_round_trip [dune] small_store))).
    reflexivity.
  - apply (proj1 (proj2 (proj2 (persistence_round_trip [dune] empty_store)))).
    reflexivity.
  - apply (proj2 (proj2 (proj2 (persistence_round_trip [] small_store))) 7%nat).
    + reflexivity.
    + apply le_n.
Defined.

(** C7, as stated, fails on two counts.  With nothing stored the empty
    collection is returned and nothing is logged; and a stored text that
    parses to something else than a sequence of books, the number [42], is
    returned as it is. *)
Lemma Load_logs_no_absence_and_checks_no_shape :
  (getItem empty_store k_books = None /\ Load empty_store = (VArr [], [])) /\
  (getItem (store_with t_number) k_books = Some t_number /\
   Load (store_with t_number) = (VNum 42 0, []) /\
   as_books (fst (Load (store_with t_number))) = None).
Proof. repeat split; reflexivity. Qed.

(** C7, as the code has it.  Whatever is stored, [Load] returns and raises
    nothing.  A stored text that parses loads as the value it parses to,
    with nothing logged, and no check that the value is a sequence of
    books; so a text that parses to a sequence of books, however it is
    spelled, loads as that sequence, and the text Save writes for a
    collection is such a text.  With nothing stored, or the empty text, the
    empty collection is returned and nothing is logged.  With a text that
    does not parse the empty collection is returned and the error is
    logged. *)
Theorem Load_decodes_or_falls_back (st : Storage) :
  (forall (s : jsstring) (v : value),
     getItem st k_books = Some s -> JSON_parse s = Normal v ->
     Load st = (v, [])) /\
  (forall (s : jsstring) (C : list Book),
     getItem st k_books = Some s -> JSON_parse s = Normal (VArr (books_value C)) ->
     Load st = (VArr (books_value C), []) /\ as_books (fst (Load st)) = Some C) /\
  (forall C : list Book,
     JSON_parse (collection_text C) = Normal (VArr (books_value C)) /\
     (getItem st k_books = Some (collection_text C) ->
      Load st = (VArr (books_value C), []) /\ as_books (fst (Load st)) = Some C)) /\
  (getItem st k_books = None \/ getItem st k_books = Some [] ->
     Load st = (VArr [], [])) /\
  (forall (s : jsstring) (e : error),
     getItem st k_books = Some s -> s <> [] -> JSON_parse s = Throw e ->
     Load st = (VArr [], [e])).
Proof.
  assert (Hparsed : forall (s : jsstring) (v : value),
             getItem st k_books = Some s -> JSON_parse s = Normal v ->
             Load st = (v, [])).
  { intros [|c s] v H Hp; [done|]. by rewrite (Load_text _ _ _ H), Hp. }
  assert (Hbooks : forall (s : jsstring) (C : list Book),
             getItem st k_books = Some s ->
             JSON_parse s = Normal (VArr (books_value C)) ->
             Load st = (VArr (books_value C), []) /\
             as_books (fst (Load st)) = Some C).
  { intros s C H Hp. rewrite (Hparsed s _ H Hp). split; [done|]. apply as_books_value. }
  assert (Htext : forall C : list Book,
             JSON_parse (collection_text C) = Normal (VArr (books_value C))).
  { intros C. apply JSON_parse_books. }
  split; [done|]. split; [done|]. split; [|split].
  - intros C. split; [done|]. intros H. by apply (Hbooks (collection_text C)).
  - unfold Load, useLocalStorage, initial_storedValue, read_item; cbn [fst]. by intros [->| ->].
  - intros [|c s] e H Hne Hp; [done|]. by rewrite (Load_text _ _ _ H), Hp.
Qed.

Lemma Load_decodes_or_falls_back_witness :
  Load (store_with t_object) = (VObj [(k_pages, VNum 412 0)], []) /\
  (Load (store_with (32%N :: collection_text [dune])) = (VArr (books_value [dune]), []) /\
   as_books (fst (Load (store_with (32%N :: collection_text [dune])))) = Some [dune]) /\
  (Load (store_with (collection_text [dune])) = (VArr (books_value [dune]), []) /\
   as_books (fst (Load (store_with (collection_text [dune])))) = Some [dune]) /\
  Load empty_store = (VArr [], []) /\
  Load (store_with t_broken) = (VArr [], [SyntaxError]).
Proof.
  split; [|split; [|split; [|split]]].
  - apply (proj1 (Load_decodes_or_falls_back (store_with t_object)) t_object).
    + reflexivity.
    + reflexivity.
  - apply (proj1 (proj2 (Load_decodes_or_falls_back
                           (store_with (32%N :: collection_text [dune]))))
             (32%N :: collection_text [dune])).
    + reflexivity.
    + reflexivity.
  - apply (proj2 (proj1 (proj2 (proj2 (Load_decodes_or_falls_back
                                         (store_with (collection_text [dune])))))
                    [dune])).
    reflexivity.
  - apply (proj1 (proj2 (proj2 (proj2 (Load_decodes_or_falls_back empty_store))))).
    left. reflexivity.
  - apply (proj2 (proj2 (proj2 (proj2 (Load_decodes_or_falls_back
                                         (store_with t_broken))))) t_broken).
    + reflexivity.
    + discriminate.
    + reflexivity.
Defined.

(** C10. [Load] checks nothing but that the text parses: with a text stored
    that parses, to whatever value, it returns that value; it puts the empty
    collection in its place only when nothing is stored or the text does not
    parse.  A number and an object that is no array of books load as they
    are. *)
Theorem Load_returns_any_parsed_value (st : Storage) :
  ((getItem st k_books = None /\ Load st = (VArr [], [])) \/
   (exists (s : jsstring) (e : error),
      getItem st k_books = Some s /\ JSON_parse s = Throw e /\
      fst (Load st) = VArr []) \/
   (exists (s : jsstring) (v : value),
      getItem st k_books = Some s /\ JSON_parse s = Normal v /\
      Load st = (v, []))) /\
  Load (store_with t_number) = (VNum 42 0, []) /\
  Load (store_with t_object) = (VObj [(k_pages, VNum 412 0)], []).
Proof.
  split; [|split; reflexivity].
  destruct (getItem st k_books) as [[|c s]|] eqn:Hget.
  - right; left. exists [], SyntaxError. repeat split; try done.
    unfold Load, useLocalStorage, initial_storedValue, read_item; cbn [fst]. by rewrite Hget.
  - right. rewrite (Load_text _ _ _ Hget).
    destruct (JSON_parse (c :: s)) as [v|e] eqn:Hp.
    + right. by exists (c :: s), v.
    + left. by exists (c :: s), e.
  - left. split; [done|].
    unfold Load, useLocalStorage, initial_storedValue, read_item; cbn [fst]. by rewrite Hget.
Qed.

(** ** Rows and the positions they dispatch *)

Lemma substring_refl (t : jsstring) : substring t t.
Proof. exists [], []. by rewrite app_nil_r. Qed.

Lemma filter_all {A} (P : A -> Prop) `{!forall x, Decision (P x)} (l : list A) :
  Forall P l -> filter P l = l.
Proof.
  induction 1 as [|x l Hx Hl IH]; [done|].
  by rewrite filter_cons, decide_True, IH.
Qed.

Section Rows.

Variable toLowerCase : jsstring -> jsstring.

(** The filter on a collection of books. *)
Lemma filteredBooks_books (C : list Book) (term : jsstring) :
  filteredBooks toLowerCase (books_value C) term
  = Normal (books_value
              (filter (fun r => substring (toLowerCase term) (toLowerCase (title r))) C)).
Proof. unfold filteredBooks, Array_filter. apply filter_from_books. Qed.

(** On a collection of books the view never throws. *)
Lemma view_of_books (C : list Book) (term : jsstring) (page : Z) :
  exists (rs : list Row) (tp : Z),
    rows toLowerCase (books_value C) term page = Normal rs /\
    totalPages toLowerCase (books_value C) term = Normal tp.
Proof.
  unfold rows, totalPages, currentBooks.
  rewrite (filteredBooks_books C term). cbn [bind]. by do 2 eexists.
Qed.

(** The rows of a collection of books are rows React takes. *)
Lemma table_imap (l : list value) (n : nat) :
  Forall (fun v => cells v = Normal tt) l ->
  table (imap (fun index book =>
                 {| shown := book;
                    onDelete := handleDeleteBook (index_value (n + index));
                    onEdit := edit_click (n + index) |}) l) = Normal tt.
Proof.
  intros Hl. revert n. induction Hl as [|v l Hv Hl IH]; intros n; [done|].
  cbn [imap table shown]. rewrite Hv. cbn [bind].
  rewrite <- (IH (S n)). f_equal. apply imap_ext. intros i x _. cbn.
  by rewrite Nat.add_succ_r.
Qed.

Lemma cells_books (C : list Book) :
  Forall (fun v => cells v = Normal tt) (books_value C).
Proof. unfold books_value. apply Forall_map, Forall_true. by intros b. Qed.

Lemma table_books (C : list Book) (term : jsstring) (page : Z) (rs : list Row) :
  rows toLowerCase (books_value C) term page = Normal rs ->
  table rs = Normal tt.
Proof.
  unfold rows, currentBooks. rewrite (filteredBooks_books C term). cbn [bind].
  intros [= <-]. apply (table_imap _ 0).
  unfold Array_slice. apply Forall_take, Forall_drop, cells_books.
Qed.

Lemma filteredBooks_editions :
  filteredBooks toLowerCase (books_value editions) (title dune)
  = Normal (books_value editions).
Proof.
  rewrite (filteredBooks_books editions (title dune)).
  rewrite filter_all; [done|].
  unfold editions. repeat constructor; apply substring_refl.
Qed.

(** C9. There are a collection, a search term and a page on which a row's
    index is not its book's position in the collection: six editions of one
    title, searched by that title, page 2.  The one row, index 0, shows the
    sixth book; its Delete button removes the first book and its Edit button
    replaces the first book, and the book shown stays as it was. *)
Theorem visible_index_diverges :
  exists (C : list Book) (term : jsstring) (page : Z) (i : nat)
         (rs : list Row) (row : Row) (b other : Book) (edit : Action),
    rows toLowerCase (books_value C) term page = Normal rs /\
    rs !! i = Some row /\
    shown row = book_value b /\
    C !! i = Some other /\
    other <> b /\
    reducer (books_value C) (onDelete row) = Normal (Fresh (books_value (delete i C))) /\
    (b ∈ delete i C) /\
    (other ∉ delete i C) /\
    onEdit row (Some (title foundation)) (Some (author foundation))
      (Some (year foundation)) = Some edit /\
    reducer (books_value C) edit
    = Normal (Fresh (books_value (<[i := foundation]> C))) /\
    (b ∈ <[i := foundation]> C) /\
    (other ∉ <[i := foundation]> C).
Proof.
  exists editions, (title dune), 2, 0%nat.
  unfold rows, currentBooks. rewrite filteredBooks_editions. cbn [bind].
  eexists _, _, (edition (year (default dune (last editions)))),
    (edition (year dune)), _.
  split; [reflexivity|]. split; [reflexivity|].
  split; [reflexivity|]. split; [reflexivity|]. split; [discriminate|].
  split; [reflexivity|].
  split; [cbn; repeat constructor|].
  split; [cbn; intros H; repeat (apply elem_of_cons in H as [H|H]; [discriminate|]);
          by apply elem_of_nil in H|].
  split; [reflexivity|]. split; [reflexivity|].
  split; [cbn; repeat constructor|].
  cbn; intros H; repeat (apply elem_of_cons in H as [H|H]; [discriminate|]).
  by apply elem_of_nil in H.
Qed.

End Rows.

(** The same with the search alone: of Dune and Foundation, the search for
    [found] shows Foundation in row 0, and that row's Delete button removes
    Dune. *)
Example search_then_delete :
  exists (rs : list Row) (row : Row),
    rows ascii_toLowerCase (books_value [dune; foundation]) t_found 1 = Normal rs /\
    rs !! 0%nat = Some row /\
    shown row = book_value foundation /\
    reducer (books_value [dune; foundation]) (onDelete row)
    = Normal (Fresh (books_value [foundation])).
Proof. do 2 eexists. repeat split; reflexivity. Qed.

(** The scenario of the specification: from the empty collection, Dune and
    Foundation are added and page 1 shows both in that order on one page;
    after Delete(0) it shows Foundation alone. *)
Example scenario :
  reducer [] (handleAddBook (book_value dune)) = Normal (Fresh (books_value [dune])) /\
  reducer (books_value [dune]) (handleAddBook (book_value foundation))
  = Normal (Fresh (books_value [dune; foundation])) /\
  currentBooks ascii_toLowerCase (books_value [dune; foundation]) [] 1
  = Normal (books_value [dune; foundation]) /\
  totalPages ascii_toLowerCase (books_value [dune; foundation]) [] = Normal 1 /\
  reducer (books_value [dune; foundation]) (handleDeleteBook (position 0))
  = Normal (Fresh (books_value [foundation])) /\
  currentBooks ascii_toLowerCase (books_value [foundation]) [] 1
  = Normal (books_value [foundation]).
Proof. repeat split; reflexivity. Qed.

(** ** The component: when the collection is saved *)

Lemma setStoredBooks_eq (app : App) :
  setStoredBooks app =
  {| localStorage := fst (Save (elems (state app)) (localStorage app));
     next_ref := next_ref app;
     storedValue := if Object_is (state app) (storedValue app) then storedValue app
                    else state app;
     state := state app;
     currentPage := currentPage app;
     searchTerm := searchTerm app;
     renders := renders app;
     last_deps := last_deps app;
     pending := pending app || negb (Object_is (state app) (storedValue app));
     trace := trace app ++ SaveCall (elems (state app))
                :: map ConsoleError (snd (Save (elems (state app)) (localStorage app))) |}.
Proof. unfold setStoredBooks. by destruct (Save _ _). Qed.

(** [setValue] is made anew by every render, so the dependency array of a
    render never equals that of a render before. *)
Lemma deps_changed_later (s f : nat) (app : App) :
  (f <= renders app)%nat ->
  deps_changed (Some (s, f)) (next_deps app) = true.
Proof.
  intros Hf. unfold deps_changed, next_deps. cbn [fst snd].
  replace (f =? S (renders app))%nat with false
    by (symmetry; apply Nat.eqb_neq; lia).
  by rewrite andb_false_r.
Qed.

Lemma save_calls_app (tr1 tr2 : list event) :
  save_calls (tr1 ++ tr2) = save_calls tr1 ++ save_calls tr2.
Proof. apply omap_app. Qed.

Lemma save_calls_errors (errs : list error) : save_calls (map ConsoleError errs) = [].
Proof. by induction errs. Qed.

Lemma effect_due_changed (app : App) :
  effect_due app -> deps_changed (last_deps app) (next_deps app) = true.
Proof.
  intros [->|(s & f & -> & Hf)]; [done|]. by apply deps_changed_later.
Qed.

Section ComponentProperties.

Variable toLowerCase : jsstring -> jsstring.

(** A render that does not throw commits, and its effect runs. *)
Lemma render_Normal (app app' : App) :
  effect_due app ->
  render toLowerCase app = Normal app' ->
  app' = setStoredBooks (commit app).
Proof.
  intros Hdue. unfold render.
  destruct (rows _ _ _ _) as [rs|]; [|done]. destruct (totalPages _ _ _); [|done].
  cbn [bind]. destruct (table rs); [|done].
  cbn [bind]. rewrite (effect_due_changed app Hdue). by intros [= <-].
Qed.

(** On a collection of books no render throws. *)
Lemma render_books (app : App) (C : list Book) :
  elems (state app) = books_value C ->
  effect_due app ->
  render toLowerCase app = Normal (setStoredBooks (commit app)).
Proof.
  intros Hel Hdue. unfold render.
  destruct (view_of_books toLowerCase C (searchTerm app) (currentPage app))
    as (rs & tp & Hr & Ht).
  rewrite Hel, Hr, Ht. cbn [bind].
  rewrite (table_books toLowerCase C _ _ _ Hr). cbn [bind].
  by rewrite (effect_due_changed app Hdue).
Qed.

(** The state after the effect of a render whose state array the hook already
    holds: at rest, one Save call more. *)
Lemma effect_at_rest (app : App) :
  effect_due app ->
  ref (storedValue app) = ref (state app) ->
  (ref (state app) < next_ref app)%nat ->
  settled (setStoredBooks (commit app)) /\
  state (setStoredBooks (commit app)) = state app /\
  exists errs : list error,
    trace (setStoredBooks (commit app))
    = trace app ++ [Rendered (elems (state app)); SaveCall (elems (state app))]
        ++ map ConsoleError errs.
Proof.
  intros Hdue Hsv Hlt. rewrite setStoredBooks_eq. unfold commit, settled.
  cbn [state elems localStorage storedValue pending trace next_ref renders last_deps].
  rewrite (effect_due_changed app Hdue). unfold Object_is, next_deps.
  rewrite Hsv, Nat.eqb_refl. cbn [negb orb].
  repeat split; try done.
  eexists. rewrite <- app_assoc. reflexivity.
Qed.

(** The state after the effect of a render whose state array is new to the
    hook: the hook's cell takes it, a render is scheduled, one Save call
    more. *)
Lemma effect_of_new_state (app : App) :
  effect_due app ->
  (ref (storedValue app) < ref (state app))%nat ->
  (ref (state app) < next_ref app)%nat ->
  let app1 := setStoredBooks (commit app) in
  pending app1 = true /\
  effect_due app1 /\
  ref (storedValue app1) = ref (state app1) /\
  (ref (state app1) < next_ref app1)%nat /\
  state app1 = state app /\
  exists errs : list error,
    trace app1
    = trace app ++ [Rendered (elems (state app)); SaveCall (elems (state app))]
        ++ map ConsoleError errs.
Proof.
  intros Hdue Hsv Hlt. cbn zeta. rewrite setStoredBooks_eq. unfold commit, effect_due.
  cbn [state elems localStorage storedValue pending trace next_ref renders last_deps].
  rewrite (effect_due_changed app Hdue). unfold Object_is, next_deps.
  replace (ref (state app) =? ref (storedValue app))%nat with false
    by (symmetry; apply Nat.eqb_neq; lia).
  cbn [negb orb]. repeat split; try done.
  - right. by eexists _, _.
  - eexists. rewrite <- app_assoc. reflexivity.
Qed.

Lemma flush_at_rest (fuel : nat) (app : App) :
  pending app = false -> flush toLowerCase fuel app = Normal app.
Proof. intros Hp. destruct fuel; cbn [flush]; by rewrite ?Hp. Qed.

(** One render brings a component whose state array the hook holds to rest. *)
Lemma one_render (app app' : App) (fuel : nat) :
  pending app = true ->
  effect_due app ->
  ref (storedValue app) = ref (state app) ->
  (ref (state app) < next_ref app)%nat ->
  flush toLowerCase (S fuel) app = Normal app' ->
  app' = setStoredBooks (commit app) /\ settled app'.
Proof.
  intros Hp Hdue Hsv Hlt. cbn [flush]. rewrite Hp.
  destruct (render toLowerCase app) as [app1|] eqn:Hr; [|done].
  apply render_Normal in Hr as ->; [|done]. cbn [bind].
  destruct (effect_at_rest app Hdue Hsv Hlt) as (Hs & _ & _).
  rewrite flush_at_rest by apply Hs. by intros [= <-].
Qed.

(** Two renders bring a component with a new state array to rest. *)
Lemma two_renders (app app' : App) (fuel : nat) :
  pending app = true ->
  effect_due app ->
  (ref (storedValue app) < ref (state app))%nat ->
  (ref (state app) < next_ref app)%nat ->
  flush toLowerCase (S (S fuel)) app = Normal app' ->
  app' = setStoredBooks (commit (setStoredBooks (commit app))) /\ settled app'.
Proof.
  intros Hp Hdue Hsv Hlt. cbn [flush]. rewrite Hp.
  destruct (render toLowerCase app) as [app1|] eqn:Hr; [|done].
  apply render_Normal in Hr as ->; [|done]. cbn [bind].
  destruct (effect_of_new_state app Hdue Hsv Hlt) as (Hp1 & Hdue1 & Hsv1 & Hlt1 & _).
  rewrite Hp1.
  destruct (render toLowerCase _) as [app2|] eqn:Hr2; [|done].
  apply render_Normal in Hr2 as ->; [|done]. cbn [bind].
  destruct (effect_at_rest _ Hdue1 Hsv1 Hlt1) as (Hs & _ & _).
  rewrite flush_at_rest by apply Hs. by intros [= <-].
Qed.

Lemma settled_effect_due (app : App) : settled app -> effect_due app.
Proof. intros (_ & Hd & _). right. by eexists _, _. Qed.

(** Every execution that comes to rest is at rest in the sense of
    [settled]. *)
Lemma run_settled (app : App) : run toLowerCase app -> settled app.
Proof.
  induction 1 as [st fuel app Hfuel Hm
                 |app action fuel app' _ IH Hfuel Hd
                 |app term fuel app' _ IH Hfuel Hs
                 |app page fuel app' _ IH Hfuel Hp].
  - unfold mount in Hm. destruct (Load st) as [v errs].
    destruct v as [| | | | |l|]; try done.
    destruct fuel as [|fuel]; [lia|].
    apply one_render in Hm as [_ Hs]; try done; cbn; [by left|lia].
  - unfold dispatch in Hd.
    destruct (reducer _ _) as [[l|]|]; cbn [bind] in Hd; try done.
    + destruct IH as (Hp & Hdeps & Hsv & Hlt).
      destruct fuel as [|[|fuel]]; [lia..|].
      apply two_renders in Hd as [_ Hs]; try done; cbn; try lia.
      right. by eexists _, _.
    + by injection Hd as <-.
  - unfold handleSearch in Hs. destruct (str_eqb _ _); [by injection Hs as <-|].
    destruct IH as (Hp & Hdeps & Hsv & Hlt).
    destruct fuel as [|fuel]; [lia|].
    apply one_render in Hs as [_ Hs]; try done. right. by eexists _, _.
  - unfold paginate in Hp. destruct (_ =? _)%Z; [by injection Hp as <-|].
    destruct IH as (Hp' & Hdeps & Hsv & Hlt).
    destruct fuel as [|fuel]; [lia|].
    apply one_render in Hp as [_ Hs]; try done. right. by eexists _, _.
Qed.

(** The first render of a stored collection of books comes to rest, the
    collection saved once. *)
Lemma mount_books (st : Storage) (C : list Book) (fuel : nat) :
  getItem st k_books = Some (collection_text C) ->
  exists (app : App) (errs : list error),
    mount toLowerCase (S fuel) st = Normal app /\
    elems (state app) = books_value C /\
    trace app = [Rendered (books_value C); SaveCall (books_value C)]
                  ++ map ConsoleError errs.
Proof.
  intros Hget. unfold mount. rewrite (Load_collection_text st C Hget).
  cbn [flush initial pending].
  rewrite (render_books _ C); [|reflexivity|by left]. cbn [bind].
  destruct (effect_at_rest (initial st (books_value C) [])) as (Hs & Hst & errs & Htr);
    [by left|done|cbn; lia|].
  rewrite flush_at_rest by apply Hs.
  eexists _, errs. split; [done|]. rewrite Hst. split; [done|]. apply Htr.
Qed.

(** A new search term or page is one committed render and one more Save
    call, of the collection as it was. *)
Lemma handleSearch_saves (app : App) (C : list Book) (term : jsstring) (fuel : nat) :
  run toLowerCase app ->
  elems (state app) = books_value C ->
  str_eqb term (searchTerm app) = false ->
  exists (app' : App) (errs : list error),
    handleSearch toLowerCase (S fuel) term app = Normal app' /\
    state app' = state app /\
    trace app' = trace app ++ [Rendered (books_value C); SaveCall (books_value C)]
                   ++ map ConsoleError errs.
Proof.
  intros (Hp & Hd & Hsv & Hlt)%run_settled Hel Hterm.
  unfold handleSearch. rewrite Hterm. cbn [flush setSearchTerm pending].
  rewrite (render_books _ C); [|done|right; by eexists _, _]. cbn [bind].
  destruct (effect_at_rest (setSearchTerm term app))
    as (Hs & Hst & errs & Htr); [right; by eexists _, _|done..|].
  rewrite flush_at_rest by apply Hs.
  eexists _, errs. split; [done|]. split; [done|]. cbn in Htr. by rewrite <- Hel.
Qed.

Lemma paginate_saves (app : App) (C : list Book) (pageNumber : Z) (fuel : nat) :
  run toLowerCase app ->
  elems (state app) = books_value C ->
  pageNumber <> currentPage app ->
  exists (app' : App) (errs : list error),
    paginate toLowerCase (S fuel) pageNumber app = Normal app' /\
    state app' = state app /\
    trace app' = trace app ++ [Rendered (books_value C); SaveCall (books_value C)]
                   ++ map ConsoleError errs.
Proof.
  intros (Hp & Hd & Hsv & Hlt)%run_settled Hel Hpage.
  unfold paginate. destruct (Z.eqb_spec pageNumber (currentPage app)) as [|_]; [done|].
  cbn [flush setCurrentPage pending].
  rewrite (render_books _ C); [|done|right; by eexists _, _]. cbn [bind].
  destruct (effect_at_rest (setCurrentPage pageNumber app))
    as (Hs & Hst & errs & Htr); [right; by eexists _, _|done..|].
  rewrite flush_at_rest by apply Hs.
  eexists _, errs. split; [done|]. split; [done|]. cbn in Htr. by rewrite <- Hel.
Qed.

(** Every action for which the reducer builds a new collection of books is
    followed by two committed renders and two Save calls: the collection is
    computed, the render that shows it is committed, it is saved, the render
    which that save's [setStoredValue] schedules is committed, and, the
    setter being a new function, it is saved again; both calls carry the
    new collection in full.  An action for which the reducer hands back its
    input array changes nothing and saves nothing. *)
Lemma each_new_collection_is_saved_twice (app : App) (action : Action)
    (C : list Book) (fuel : nat) :
  run toLowerCase app ->
  (2 <= fuel)%nat ->
  (reducer (elems (state app)) action = Normal (Fresh (books_value C)) ->
   exists (app' : App) (errs1 errs2 : list error),
     dispatch toLowerCase fuel action app = Normal app' /\
     run toLowerCase app' /\
     pending app' = false /\
     elems (state app') = books_value C /\
     trace app'
     = trace app
         ++ [Reduced (books_value C); Rendered (books_value C); SaveCall (books_value C)]
         ++ map ConsoleError errs1
         ++ [Rendered (books_value C); SaveCall (books_value C)]
         ++ map ConsoleError errs2 /\
     save_calls (trace app')
     = save_calls (trace app) ++ [books_value C; books_value C]) /\
  (reducer (elems (state app)) action = Normal Input ->
   dispatch toLowerCase fuel action app = Normal app).
Proof.
  intros Hrun Hfuel. split; [|by unfold dispatch; intros ->].
  intros Hred. pose proof (run_settled app Hrun) as (Hp & Hd & Hsv & Hlt).
  destruct fuel as [|[|fuel]]; [lia..|].
  assert (Hdisp : exists app', dispatch toLowerCase (S (S fuel)) action app = Normal app'
                               /\ app' = setStoredBooks (commit (setStoredBooks
                                           (commit (set_state (books_value C) app))))).
  { unfold dispatch. rewrite Hred. cbn [bind flush set_state pending].
    rewrite (render_books _ C); [|done|right; by eexists _, _]. cbn [bind].
    destruct (effect_of_new_state (set_state (books_value C) app))
      as (Hp1 & Hdue1 & Hsv1 & Hlt1 & Hst1 & _);
      [right; by eexists _, _|cbn; lia..|].
    rewrite Hp1, (render_books _ C); [|by rewrite Hst1|done]. cbn [bind].
    destruct (effect_at_rest _ Hdue1 Hsv1 Hlt1) as (Hs & _).
    rewrite flush_at_rest by apply Hs. by eexists. }
  destruct Hdisp as (app' & Hdisp & Happ').
  destruct (effect_of_new_state (set_state (books_value C) app))
    as (Hp1 & Hdue1 & Hsv1 & Hlt1 & Hst1 & errs1 & Htr1);
    [right; by eexists _, _|cbn; lia..|].
  destruct (effect_at_rest _ Hdue1 Hsv1 Hlt1) as (Hs & Hst2 & errs2 & Htr2).
  rewrite <- Happ' in Hs, Hst2, Htr2.
  assert (Htr : trace app'
            = trace app
                ++ [Reduced (books_value C); Rendered (books_value C);
                    SaveCall (books_value C)]
                ++ map ConsoleError errs1
                ++ [Rendered (books_value C); SaveCall (books_value C)]
                ++ map ConsoleError errs2).
  { rewrite Htr2, Htr1, Hst1. cbn [set_state state elems trace].
    rewrite <- !app_assoc. reflexivity. }
  exists app', errs1, errs2. split; [done|].
  split; [by apply (run_dispatch _ app action (S (S fuel)))|].
  split; [apply Hs|]. split; [by rewrite Hst2, Hst1|]. split; [done|].
  rewrite Htr, !save_calls_app, !save_calls_errors. reflexivity.
Qed.

End ComponentProperties.

Example mount_empty_store :
  mount ascii_toLowerCase 1 empty_store = Normal app_at_rest.
Proof. reflexivity. Qed.

(** C8.  The effect (lines 66-68) is meant to save once for each new
    collection, and saves twice: its dependency array holds [setStoredBooks],
    the closure [setValue] that the hook makes anew at every render, where
    [handleSearch] and [paginate] are kept by [useCallback].  After the
    first render on an empty store, adding Dune makes one new collection and
    two Save calls carrying it. *)
Lemma one_new_collection_two_saves :
  exists app' : App,
    dispatch ascii_toLowerCase 2 (handleAddBook (book_value dune)) app_at_rest
    = Normal app' /\
    save_calls (trace app_at_rest) = [[]] /\
    save_calls (trace app') = [[]; books_value [dune]; books_value [dune]].
Proof. eexists. repeat split; reflexivity. Qed.

Lemma run_app_at_rest : run ascii_toLowerCase app_at_rest.
Proof. by apply (run_mount _ empty_store 1). Defined.

(** * Further properties *)

(** ** More on the reducer *)

Lemma strict_eq_index_of (i : nat) (v : value) :
  strict_eq_index i v = true <-> index_of_value v = Some i.
Proof.
  destruct v as [| | |m e| | |]; simpl; try (split; done).
  destruct (Z.leb_spec 0 e) as [He|He].
  - rewrite Z.eqb_eq. destruct (Z.leb_spec 0 (m * 10 ^ e)) as [Hm|Hm].
    + split; [intros ->; f_equal; lia|intros [= <-]; lia].
    + split; [lia|done].
  - assert (Hpos : 0 < 10 ^ (- e)) by (apply Z.pow_pos_nonneg; lia).
    rewrite Z.eqb_eq. split.
    + intros ->.
      replace (0 <=? Z.of_nat i * 10 ^ (- e)) with true by (symmetry; apply Z.leb_le; nia).
      rewrite Z.mod_mul, Z.eqb_refl, Z.div_mul by lia. cbn [andb]. f_equal. lia.
    + destruct (Z.leb_spec 0 m) as [Hm|Hm]; [|done].
      destruct (Z.eqb_spec (m mod 10 ^ (- e)) 0) as [Hmod|]; [|done].
      cbn [andb]. intros [= <-].
      pose proof (Z.div_mod m (10 ^ (- e)) ltac:(lia)) as Hdm.
      assert (0 <= m / 10 ^ (- e)) by (apply Z.div_pos; lia). 
      rewrite Z2Nat.id by lia. lia.
Qed.

Lemma filter_from_delete_index (C : list value) (i : nat) (v : value) :
  filter_from i (fun _ index => Normal (negb (strict_eq_index index v))) C
  = Normal (match index_of_value v with
            | Some j => if decide (i <= j)%nat then delete (j - i)%nat C else C
            | None => C
            end).
Proof.
  revert i. induction C as [|x C IH]; intros i; cbn [filter_from bind].
  - destruct (index_of_value v); [case_decide|]; done.
  - rewrite IH. destruct (strict_eq_index i v) eqn:Hi.
    + apply strict_eq_index_of in Hi as ->. cbn [negb].
      rewrite decide_False by lia. rewrite decide_True by lia.
      by rewrite Nat.sub_diag.
    + cbn [negb]. destruct (index_of_value v) as [j|] eqn:Hj; [|done].
      assert (j <> i) by (intros ->; apply strict_eq_index_of in Hj; congruence).
      repeat case_decide; try lia; [|done].
      replace (j - i)%nat with (S (j - S i)) by lia. done.
Qed.

Lemma reducer_delete_index (C : list value) (v : value) :
  reducer C (handleDeleteBook v)
  = Normal (Fresh (match index_of_value v with
                   | Some i => delete i C
                   | None => C
                   end)).
Proof.
  unfold reducer, Array_filter.
  change (strict_eq_str ADD_BOOK (type (handleDeleteBook v))) with false.
  change (strict_eq_str DELETE_BOOK (type (handleDeleteBook v))) with true.
  cbv iota. change (payload (handleDeleteBook v)) with v.
  rewrite filter_from_delete_index. cbn [bind].
  destruct (index_of_value v) as [i|]; [|done].
  rewrite decide_True by lia. by rewrite Nat.sub_0_r.
Qed.

(** X1. Delete never fails, whatever its payload.  A payload that is a
    number equal to an index [i] gives the collection without its element
    [i]; every other payload - a number that is no index, a string of
    digits, [undefined] - gives a new array with the same elements.  The
    result keeps the order of what is left and is at most one shorter. *)
Theorem delete_any_payload (C : list value) (v : value) :
  exists D : list value,
    reducer C (handleDeleteBook v) = Normal (Fresh D) /\
    D = match index_of_value v with
        | Some i => delete i C
        | None => C
        end /\
    sublist D C /\
    (length C - 1 <= length D <= length C)%nat /\
    (forall s : list N, reducer C (handleDeleteBook (VStr s)) = Normal (Fresh C)).
Proof.
  eexists. split; [apply reducer_delete_index|]. split; [done|].
  assert (Hsub : sublist (match index_of_value v with
                          | Some i => delete i C
                          | None => C
                          end) C).
  { destruct (index_of_value v); [apply sublist_delete|done]. }
  split; [done|]. split.
  - split; [|by apply sublist_length].
    destruct (index_of_value v) as [i|]; [|lia].
    destruct (decide (i < length C)%nat).
    + rewrite length_delete by (apply lookup_lt_is_Some; lia). lia.
    + rewrite delete_out_of_range by lia. lia.
  - intros s. by rewrite reducer_delete_index.
Qed.

Lemma index_of_index_value (i : nat) : index_of_value (index_value i) = Some i.
Proof.
  apply strict_eq_index_of. unfold index_value. simpl.
  rewrite Z.mul_1_r. apply Z.eqb_refl.
Qed.

Lemma map_from_edit_index (C : list value) (i : nat) (pl idx bk : value) :
  get pl k_index = Normal idx ->
  get pl k_book = Normal bk ->
  map_from i
    (fun book index =>
       j <- get pl k_index ;;
       if strict_eq_index index j then get pl k_book else Normal book) C
  = Normal (match index_of_value idx with
            | Some j => if decide (i <= j)%nat then <[(j - i)%nat := bk]> C else C
            | None => C
            end).
Proof.
  intros Hidx Hbk. revert i. induction C as [|x C IH]; intros i; cbn [map_from].
  - destruct (index_of_value idx); [case_decide|]; done.
  - rewrite IH, Hidx. cbn [bind]. destruct (strict_eq_index i idx) eqn:Hi.
    + rewrite Hbk. apply strict_eq_index_of in Hi as ->. cbn [bind].
      rewrite decide_False by lia. rewrite decide_True by lia.
      by rewrite Nat.sub_diag.
    + cbn [bind]. destruct (index_of_value idx) as [j|] eqn:Hj; [|done].
      assert (j <> i) by (intros ->; apply strict_eq_index_of in Hj; congruence).
      repeat case_decide; try lia; [|done].
      replace (j - i)%nat with (S (j - S i)) by lia. done.
Qed.

Lemma reducer_edit_index (C : list value) (pl idx bk : value) :
  get pl k_index = Normal idx ->
  get pl k_book = Normal bk ->
  reducer C {| type := VStr EDIT_BOOK; payload := pl |}
  = Normal (Fresh (match index_of_value idx with
                   | Some i => <[i := bk]> C
                   | None => C
                   end)).
Proof.
  intros Hidx Hbk. unfold reducer, Array_map. cbn [type payload].
  change (strict_eq_str ADD_BOOK (VStr EDIT_BOOK)) with false.
  change (strict_eq_str DELETE_BOOK (VStr EDIT_BOOK)) with false.
  change (strict_eq_str EDIT_BOOK (VStr EDIT_BOOK)) with true.
  cbv iota. rewrite (map_from_edit_index C 0 pl idx bk Hidx Hbk). cbn [bind].
  destruct (index_of_value idx) as [i|]; [|done].
  rewrite decide_True by lia. by rewrite Nat.sub_0_r.
Qed.

(** X2. Edit with a payload that is neither [null] nor [undefined] never
    fails and keeps the length of the collection.  With [idx] and [bk] what
    the payload answers for [index] and [book], the element at [idx] is
    replaced by [bk] when [idx] is a number equal to an index of the
    collection; otherwise the elements are as they were.  Nothing checks
    that [bk] is a book. *)
Theorem edit_any_payload (C : list value) (pl : value) :
  nullish pl = false ->
  exists (idx bk : value) (E : list value),
    get pl k_index = Normal idx /\
    get pl k_book = Normal bk /\
    reducer C {| type := VStr EDIT_BOOK; payload := pl |} = Normal (Fresh E) /\
    E = match index_of_value idx with
        | Some i => <[i := bk]> C
        | None => C
        end /\
    length E = length C.
Proof.
  intros Hpl.
  destruct (get_not_nullish pl k_index Hpl) as [idx Hidx].
  destruct (get_not_nullish pl k_book Hpl) as [bk Hbk].
  eexists idx, bk, _. split; [done|]. split; [done|].
  split; [by apply reducer_edit_index|]. split; [done|].
  destruct (index_of_value idx); [apply length_insert|done].
Qed.

Lemma edit_any_payload_witness :
  exists (idx bk : value) (E : list value),
    get (VObj [(k_index, index_value 0); (k_book, book_value foundation)]) k_index
    = Normal idx /\
    get (VObj [(k_index, index_value 0); (k_book, book_value foundation)]) k_book
    = Normal bk /\
    reducer (books_value [dune])
      {| type := VStr EDIT_BOOK;
         payload := VObj [(k_index, index_value 0); (k_book, book_value foundation)] |}
    = Normal (Fresh E) /\
    E = match index_of_value idx with
        | Some i => <[i := bk]> (books_value [dune])
        | None => books_value [dune]
        end /\
    length E = length (books_value [dune]).
Proof.
  apply (edit_any_payload (books_value [dune])
           (VObj [(k_index, index_value 0); (k_book, book_value foundation)])).
  reflexivity.
Defined.

Lemma books_value_delete (C : list Book) (i : nat) :
  delete i (books_value C) = books_value (delete i C).
Proof.
  unfold books_value. revert i. induction C as [|b C IH]; intros [|i]; simpl; try done.
  by rewrite IH.
Qed.

Lemma books_value_insert (C : list Book) (i : nat) (b : Book) :
  <[i := book_value b]> (books_value C) = books_value (<[i := b]> C).
Proof.
  unfold books_value. revert i. induction C as [|b' C IH]; intros [|i]; simpl; try done.
  by rewrite IH.
Qed.

Lemma books_value_app (C1 C2 : list Book) :
  books_value C1 ++ books_value C2 = books_value (C1 ++ C2).
Proof. unfold books_value. by rewrite map_app. Qed.

(** X3. Add and Edit can be undone.  Deleting at the index of the element
    just added, the old length, gives the collection back; so does editing
    the slot just edited with the element that was there. *)
Theorem undo_add_and_edit (C : list value) (r : value) :
  reducer (C ++ [r]) (handleDeleteBook (index_value (length C))) = Normal (Fresh C) /\
  (forall (i : nat) (old : value),
     C !! i = Some old ->
     reducer (<[i := r]> C) (handleEditBook (index_value i) old) = Normal (Fresh C)).
Proof.
  split.
  - rewrite reducer_delete_index, index_of_index_value.
    by rewrite delete_middle, app_nil_r.
  - intros i old Hi. unfold handleEditBook.
    rewrite (reducer_edit_index _ _ (index_value i) old) by reflexivity.
    rewrite index_of_index_value, list_insert_insert_eq. by rewrite list_insert_id.
Qed.

Lemma undo_add_and_edit_witness :
  reducer (books_value [dune] ++ [book_value foundation])
    (handleDeleteBook (index_value (length (books_value [dune]))))
  = Normal (Fresh (books_value [dune])) /\
  reducer (<[0%nat := book_value foundation]> (books_value [dune]))
    (handleEditBook (index_value 0) (book_value dune))
  = Normal (Fresh (books_value [dune])).
Proof.
  split.
  - apply (proj1 (undo_add_and_edit (books_value [dune]) (book_value foundation))).
  - apply (proj2 (undo_add_and_edit (books_value [dune]) (book_value foundation))
             0%nat (book_value dune)).
    reflexivity.
Defined.

(** X4. An edit leaves no mark once its slot is edited again or deleted:
    from the collection with slot [i] edited, a further Edit or Delete at
    [i] gives what it gives from the collection as it was before. *)
Theorem later_mutation_wins (C : list value) (i : nat) (r1 r2 : value) :
  reducer (<[i := r1]> C) (handleEditBook (index_value i) r2)
  = reducer C (handleEditBook (index_value i) r2) /\
  reducer (<[i := r1]> C) (handleDeleteBook (index_value i))
  = reducer C (handleDeleteBook (index_value i)).
Proof.
  unfold handleEditBook. split.
  - rewrite !(reducer_edit_index _ _ (index_value i) r2) by reflexivity.
    by rewrite index_of_index_value, list_insert_insert_eq.
  - rewrite !reducer_delete_index, index_of_index_value.
    do 2 f_equal. rewrite !delete_take_drop, take_insert_ge, drop_insert_lt by lia. done.
Qed.

(** ** More on the view *)

Lemma substring_trans (a b c : jsstring) : substring a b -> substring b c -> substring a c.
Proof.
  intros (p1 & s1 & ->) (p2 & s2 & ->). exists (p2 ++ p1), (s1 ++ s2).
  by rewrite <- !app_assoc.
Qed.

Lemma filter_narrows {A} (P Q : A -> Prop) `{!forall x, Decision (P x)}
    `{!forall x, Decision (Q x)} (l : list A) :
  (forall x, Q x -> P x) -> sublist (filter Q l) (filter P l).
Proof.
  intros HQP. induction l as [|x l IH]; [done|].
  rewrite !filter_cons. destruct (decide (Q x)) as [HQ|HQ].
  - rewrite decide_True by auto. by apply sublist_skip.
  - destruct (decide (P x)); [by apply sublist_cons|done].
Qed.

Section ViewErrors.

Variable toLowerCase : jsstring -> jsstring.

(** The callback of the filter throws exactly on a value without a string
    title. *)
Lemma filter_callback (x : value) (term : jsstring) :
  (t <- get x k_title ;;
   lt <- call_toLowerCase toLowerCase t ;;
   Normal (includes lt (toLowerCase term)))
  = if has_title x
    then Normal (includes (toLowerCase (match get x k_title with
                                        | Normal (VStr s) => s
                                        | _ => []
                                        end)) (toLowerCase term))
    else Throw TypeError.
Proof.
  unfold has_title. destruct (get x k_title) as [t|e] eqn:Hget.
  - destruct t; reflexivity.
  - cbn [bind]. destruct x; simpl in Hget; congruence.
Qed.

Lemma filter_from_titles (state : list value) (term : jsstring) (i : nat) :
  if forallb has_title state
  then exists fb : list value,
         filter_from i
           (fun book _ =>
              t <- get book k_title ;;
              lt <- call_toLowerCase toLowerCase t ;;
              Normal (includes lt (toLowerCase term))) state = Normal fb /\
         sublist fb state
  else filter_from i
         (fun book _ =>
            t <- get book k_title ;;
            lt <- call_toLowerCase toLowerCase t ;;
            Normal (includes lt (toLowerCase term))) state = Throw TypeError.
Proof.
  revert i. induction state as [|x state IH]; intros i.
  - exists []. by split.
  - cbn [forallb filter_from]. rewrite filter_callback.
    destruct (has_title x); cbn [andb bind]; [|done].
    specialize (IH (S i)). destruct (forallb has_title state).
    + destruct IH as (fb & -> & Hsub). cbn [bind].
      eexists. split; [done|].
      destruct (includes _ _); [by apply sublist_skip|by apply sublist_cons].
    + by rewrite IH.
Qed.

Lemma filteredBooks_throws (state : list value) (term : jsstring) :
  forallb has_title state = false ->
  filteredBooks toLowerCase state term = Throw TypeError.
Proof.
  intros Hall. pose proof (filter_from_titles state term 0) as H.
  by rewrite Hall in H.
Qed.

Lemma rows_throw (state : list value) (term : jsstring) (page : Z) :
  forallb has_title state = false ->
  rows toLowerCase state term page = Throw TypeError.
Proof.
  intros Hall. unfold rows, currentBooks. by rewrite filteredBooks_throws.
Qed.

(** X5. The view is computed exactly when every element of the state has
    a string for its [title].  Then the filtered sequence keeps the order of
    the state and the rows are no more than it has.  With one element that
    is not so - [null], [undefined], an object without a title - the filter
    throws a [TypeError], and with it the page, the rows and the count of
    pages: the render fails, whatever the search term and the page. *)
Theorem view_throws_on_untitled (state : list value) (term : jsstring) (page : Z) :
  (forallb has_title state = true ->
   exists (fb : list value) (rs : list Row),
     filteredBooks toLowerCase state term = Normal fb /\
     sublist fb state /\
     rows toLowerCase state term page = Normal rs /\
     (length rs <= length fb)%nat) /\
  (forallb has_title state = false ->
   filteredBooks toLowerCase state term = Throw TypeError /\
   currentBooks toLowerCase state term page = Throw TypeError /\
   rows toLowerCase state term page = Throw TypeError /\
   totalPages toLowerCase state term = Throw TypeError).
Proof.
  pose proof (filter_from_titles state term 0) as H.
  unfold rows, totalPages, currentBooks, filteredBooks, Array_filter.
  split; intros Hall; rewrite Hall in H.
  - destruct H as (fb & -> & Hsub). cbn [bind].
    eexists _, _. repeat split; try done.
    rewrite length_imap. unfold Array_slice.
    rewrite length_take, length_drop. lia.
  - by rewrite H.
Qed.

(** X6. A search term that contains another one, letter case apart, finds
    no book the other one does not find: its filtered sequence is, in
    order, part of the other's, which is part of the collection. *)
Theorem longer_term_narrows (C : list Book) (t t' : jsstring) :
  substring (toLowerCase t) (toLowerCase t') ->
  exists F F' : list Book,
    filteredBooks toLowerCase (books_value C) t = Normal (books_value F) /\
    filteredBooks toLowerCase (books_value C) t' = Normal (books_value F') /\
    sublist F' F /\
    sublist F C.
Proof.
  intros Hsub. eexists _, _.
  split; [apply filteredBooks_books|].
  split; [apply filteredBooks_books|].
  split; [|apply sublist_filter].
  apply filter_narrows. intros b Hb. by apply (substring_trans _ (toLowerCase t')).
Qed.

End ViewErrors.

Lemma view_throws_on_untitled_witness :
  (exists (fb : list value) (rs : list Row),
     filteredBooks ascii_toLowerCase (books_value [dune]) t_found = Normal fb /\
     sublist fb (books_value [dune]) /\
     rows ascii_toLowerCase (books_value [dune]) t_found 1 = Normal rs /\
     (length rs <= length fb)%nat) /\
  (filteredBooks ascii_toLowerCase [book_value dune; VObj []] t_found = Throw TypeError /\
   currentBooks ascii_toLowerCase [book_value dune; VObj []] t_found 1 = Throw TypeError /\
   rows ascii_toLowerCase [book_value dune; VObj []] t_found 1 = Throw TypeError /\
   totalPages ascii_toLowerCase [book_value dune; VObj []] t_found = Throw TypeError).
Proof.
  split.
  - apply (proj1 (view_throws_on_untitled ascii_toLowerCase (books_value [dune])
                    t_found 1)).
    reflexivity.
  - apply (proj2 (view_throws_on_untitled ascii_toLowerCase [book_value dune; VObj []]
                    t_found 1)).
    reflexivity.
Defined.

Lemma longer_term_narrows_witness :
  exists F F' : list Book,
    filteredBooks ascii_toLowerCase (books_value [dune; foundation]) t_found
    = Normal (books_value F) /\
    filteredBooks ascii_toLowerCase (books_value [dune; foundation]) (title foundation)
    = Normal (books_value F') /\
    sublist F' F /\
    sublist F [dune; foundation].
Proof.
  apply (longer_term_narrows ascii_toLowerCase [dune; foundation] t_found
           (title foundation)).
  exists [], (ascii_toLowerCase (drop 5 (title foundation))). reflexivity.
Defined.

(** ** More on pagination *)

Lemma page_of_positive (fb : list value) (p : Z) :
  1 <= p -> page_of fb p = take 5 (drop (Z.to_nat ((p - 1) * 5)) fb).
Proof. intros Hp. unfold page_of, booksPerPage. by apply slice_page. Qed.

Lemma chunks_concat (fb : list value) (n : nat) :
  concat (map (fun i : nat => take 5 (drop (5 * i) fb)) (seq 0 n)) = take (5 * n) fb.
Proof.
  induction n as [|n IH]; [by rewrite Nat.mul_0_r, take_0|].
  rewrite seq_S, map_app, concat_app, IH. cbn [map concat Nat.add].
  rewrite app_nil_r, take_take_drop. f_equal. lia.
Qed.

Lemma page_buttons_pages (fb : list value) (last : Z) :
  map (page_of fb) (page_buttons last)
  = map (fun i : nat => take 5 (drop (5 * i) fb)) (seq 0 (Z.to_nat last)).
Proof.
  unfold page_buttons. rewrite map_map. apply map_ext. intros i.
  rewrite page_of_positive by lia. do 2 f_equal. lia.
Qed.

Lemma elem_of_page_buttons (n last : Z) : n ∈ page_buttons last <-> 1 <= n <= last.
Proof.
  unfold page_buttons. rewrite list_elem_of_In, in_map_iff. split.
  - intros (i & <- & Hi%in_seq). lia.
  - intros Hn. exists (Z.to_nat (n - 1)). split; [lia|]. apply in_seq. lia.
Qed.

(** X7. The numbered buttons cut the filtered sequence into its pages: the
    pages of the buttons [1 .. last], one after the other, are the filtered
    sequence, each book once and in order.  Every page before the last has
    five books, the last has from one to five, and a page after the last is
    empty. *)
Theorem pages_partition (fb : list value) :
  let last := Math_ceil_div (Z.of_nat (length fb)) booksPerPage in
  concat (map (page_of fb) (page_buttons last)) = fb /\
  (forall p : Z, 1 <= p < last -> length (page_of fb p) = 5%nat) /\
  (1 <= last -> (1 <= length (page_of fb last) <= 5)%nat) /\
  (forall p : Z, 1 <= p -> last < p -> page_of fb p = []).
Proof.
  cbn zeta. pose proof (Math_ceil_div_bounds (Z.of_nat (length fb))) as Hb.
  unfold booksPerPage in *.
  set (last := Math_ceil_div (Z.of_nat (length fb)) 5) in *.
  split; [|split; [|split]].
  - rewrite page_buttons_pages, chunks_concat. apply take_ge. lia.
  - intros p Hp. rewrite page_of_positive, length_take, length_drop by lia. lia.
  - intros Hl. rewrite page_of_positive, length_take, length_drop by lia. lia.
  - intros p Hp Hlast. rewrite page_of_positive by lia.
    rewrite drop_ge by lia. apply take_nil.
Qed.

Lemma pages_partition_witness :
  concat (map (page_of (books_value twelve)) (page_buttons 3)) = books_value twelve /\
  length (page_of (books_value twelve) 2) = 5%nat /\
  (1 <= length (page_of (books_value twelve) 3) <= 5)%nat /\
  page_of (books_value twelve) 4 = [].
Proof.
  destruct (pages_partition (books_value twelve)) as (H1 & H2 & H3 & H4).
  split; [exact H1|]. split; [|split].
  - apply H2. split; [discriminate|reflexivity].
  - apply H3. discriminate.
  - apply H4; [discriminate|reflexivity].
Defined.

(** X8. The pagination controls.  The numbered buttons are the pages
    [1 .. last] and no other.  From a page [>= 1] Previous and Next call
    [paginate] with a page [>= 1], and from a page in [1 .. last] with a
    page in [1 .. last]; where the button is not disabled that is the page
    before, or after.  When the current page is beyond the last - an empty
    filtered sequence has [last = 0] - Next is not disabled and asks for the
    page one is on. *)
Theorem pagination_controls (page last : Z) :
  (1 <= page -> 1 <= previous_click page /\ 1 <= next_click page last) /\
  (1 <= page <= last ->
   1 <= previous_click page <= last /\ 1 <= next_click page last <= last) /\
  (forall n : Z, n ∈ page_buttons last <-> 1 <= n <= last) /\
  (previous_disabled page = false -> 1 <= page -> previous_click page = page - 1) /\
  (next_disabled page last = false -> page <= last -> next_click page last = page + 1) /\
  (last < page -> next_disabled page last = false /\ next_click page last = page).
Proof.
  unfold previous_click, next_click, previous_disabled, next_disabled.
  refine (conj _ (conj _ (conj _ (conj _ (conj _ _))))).
  - intros Hp. destruct (Z.ltb_spec 1 page), (Z.ltb_spec page last); lia.
  - intros Hp. destruct (Z.ltb_spec 1 page), (Z.ltb_spec page last); lia.
  - intros n. apply elem_of_page_buttons.
  - intros Hd%Z.eqb_neq Hp. destruct (Z.ltb_spec 1 page); lia.
  - intros Hd%Z.eqb_neq Hp. destruct (Z.ltb_spec page last); lia.
  - intros Hp. split; [apply Z.eqb_neq; lia|].
    destruct (Z.ltb_spec page last); lia.
Qed.

Lemma pagination_controls_witness :
  (1 <= previous_click 2 <= 3 /\ 1 <= next_click 2 3 <= 3) /\
  previous_click 2 = 2 - 1 /\
  next_click 2 3 = 2 + 1 /\
  (1 <= previous_click 1 /\ 1 <= next_click 1 0) /\
  (next_disabled 1 0 = false /\ next_click 1 0 = 1).
Proof.
  destruct (pagination_controls 2 3) as (_ & H2 & _ & H4 & H5 & _).
  destruct (pagination_controls 1 0) as (H1 & _ & _ & _ & _ & H6).
  split; [apply H2; lia|]. split; [apply H4; [reflexivity|lia]|].
  split; [apply H5; [reflexivity|lia]|]. split; [apply H1; lia|apply H6; lia].
Defined.

(** ** More on the rows *)

Lemma books_value_lookup (C : list Book) (i : nat) :
  books_value C !! i = book_value <$> C !! i.
Proof.
  unfold books_value. revert i. induction C as [|b C IH]; intros [|i]; simpl; done.
Qed.

Section RowsOfBooks.

Variable toLowerCase : jsstring -> jsstring.

Lemma rows_books (C : list Book) (term : jsstring) (page : Z) :
  rows toLowerCase (books_value C) term page
  = Normal (imap (fun index book =>
                    {| shown := book;
                       onDelete := handleDeleteBook (index_value index);
                       onEdit := edit_click index |})
              (page_of (books_value
                          (filter (fun r => substring (toLowerCase term)
                                              (toLowerCase (title r))) C)) page)).
Proof.
  unfold rows, currentBooks. by rewrite filteredBooks_books.
Qed.

(** X9. What a row of the table does.  On a page [>= 1] there are at most
    five rows.  Row [i] shows the book at place [(page - 1) * 5 + i] of the
    filtered sequence, but its buttons act on place [i] of the whole
    collection: Delete gives the collection without its element [i], Edit
    with three non-empty answers puts the new book at [i], and Edit with an
    answer that is empty or cancelled dispatches nothing. *)
Theorem row_acts_on_its_index (C : list Book) (term : jsstring) (page : Z) :
  1 <= page ->
  exists rs : list Row,
    rows toLowerCase (books_value C) term page = Normal rs /\
    (length rs <= 5)%nat /\
    forall (i : nat) (row : Row),
      rs !! i = Some row ->
      (exists b : Book,
         filter (fun r => substring (toLowerCase term) (toLowerCase (title r))) C
           !! (Z.to_nat ((page - 1) * booksPerPage) + i)%nat = Some b /\
         shown row = book_value b) /\
      reducer (books_value C) (onDelete row)
      = Normal (Fresh (books_value (delete i C))) /\
      (forall t a y : option jsstring,
         truthy t && truthy a && truthy y = false -> onEdit row t a y = None) /\
      (forall t a y : jsstring,
         t <> [] -> a <> [] -> y <> [] ->
         exists action : Action,
           onEdit row (Some t) (Some a) (Some y) = Some action /\
           reducer (books_value C) action
           = Normal (Fresh (books_value
                              (<[i := {| title := t; author := a; year := y |}]> C)))).
Proof.
  intros Hp. eexists. split; [apply rows_books|].
  rewrite length_imap, page_of_positive, length_take by done.
  split; [lia|]. intros i row Hrow.
  rewrite list_lookup_imap in Hrow.
  destruct (take 5 _ !! i) as [x|] eqn:Hx; [|done]. injection Hrow as <-.
  cbn [shown onDelete onEdit].
  assert (Hi : (i < 5)%nat).
  { apply lookup_lt_Some in Hx. rewrite length_take in Hx. lia. }
  rewrite lookup_take_lt, lookup_drop, books_value_lookup in Hx by done.
  refine (conj _ (conj _ (conj _ _))).
  - destruct (filter _ C !! _) as [b|] eqn:Hb; [|done].
    exists b. split; [done|]. by injection Hx as <-.
  - by rewrite reducer_delete_index, index_of_index_value, books_value_delete.
  - intros t a y Hf. unfold edit_click. by rewrite Hf.
  - intros [|c t] [|d a] [|e y] Ht Ha Hy; try done.
    eexists. split; [reflexivity|]. unfold handleEditBook.
    rewrite (reducer_edit_index _ _ (index_value i)
               (book_value {| title := c :: t; author := d :: a; year := e :: y |}))
      by reflexivity.
    by rewrite index_of_index_value, books_value_insert.
Qed.

(** X10. When every book of the collection matches the search term, as
    with the empty term, a row of page 1 shows the book at its own index:
    its Delete button removes the book it shows and no other. *)
Theorem first_page_rows_act_on_shown_book (C : list Book) (term : jsstring)
    (rs : list Row) (i : nat) (row : Row) :
  Forall (fun r => substring (toLowerCase term) (toLowerCase (title r))) C ->
  rows toLowerCase (books_value C) term 1 = Normal rs ->
  rs !! i = Some row ->
  exists b : Book,
    C !! i = Some b /\
    shown row = book_value b /\
    reducer (books_value C) (onDelete row)
    = Normal (Fresh (books_value (delete i C))) /\
    length (delete i C) = (length C - 1)%nat.
Proof.
  intros Hall. rewrite rows_books, filter_all by done. intros [= <-] Hrow.
  rewrite list_lookup_imap, page_of_positive in Hrow by done.
  destruct (take 5 _ !! i) as [x|] eqn:Hx; [|done]. injection Hrow as <-.
  cbn [shown onDelete].
  assert (Hi : (i < 5)%nat).
  { apply lookup_lt_Some in Hx. rewrite length_take in Hx. lia. }
  rewrite lookup_take_lt, lookup_drop, books_value_lookup in Hx by done.
  change (Z.to_nat ((1 - 1) * 5) + i)%nat with i in Hx.
  destruct (C !! i) as [b|] eqn:Hb; [|done]. injection Hx as <-.
  exists b. split; [done|]. split; [done|]. split.
  - by rewrite reducer_delete_index, index_of_index_value, books_value_delete.
  - apply length_delete. by exists b.
Qed.

End RowsOfBooks.

Lemma row_acts_on_its_index_witness :
  exists rs : list Row,
    rows ascii_toLowerCase (books_value editions) (title dune) 2 = Normal rs /\
    (length rs <= 5)%nat /\
    forall (i : nat) (row : Row),
      rs !! i = Some row ->
      (exists b : Book,
         filter (fun r => substring (ascii_toLowerCase (title dune))
                            (ascii_toLowerCase (title r))) editions
           !! (Z.to_nat ((2 - 1) * booksPerPage) + i)%nat = Some b /\
         shown row = book_value b) /\
      reducer (books_value editions) (onDelete row)
      = Normal (Fresh (books_value (delete i editions))) /\
      (forall t a y : option jsstring,
         truthy t && truthy a && truthy y = false -> onEdit row t a y = None) /\
      (forall t a y : jsstring,
         t <> [] -> a <> [] -> y <> [] ->
         exists action : Action,
           onEdit row (Some t) (Some a) (Some y) = Some action /\
           reducer (books_value editions) action
           = Normal (Fresh (books_value
                              (<[i := {| title := t; author := a; year := y |}]>
                                 editions)))).
Proof.
  apply (row_acts_on_its_index ascii_toLowerCase editions (title dune) 2).
  discriminate.
Defined.

Lemma first_page_rows_act_on_shown_book_witness :
  exists b : Book,
    [dune; foundation] !! 1%nat = Some b /\
    shown {| shown := book_value foundation;
             onDelete := handleDeleteBook (index_value 1);
             onEdit := edit_click 1 |} = book_value b /\
    reducer (books_value [dune; foundation])
      (onDelete {| shown := book_value foundation;
                   onDelete := handleDeleteBook (index_value 1);
                   onEdit := edit_click 1 |})
    = Normal (Fresh (books_value (delete 1%nat [dune; foundation]))) /\
    length (delete 1%nat [dune; foundation]) = (length [dune; foundation] - 1)%nat.
Proof.
  apply (first_page_rows_act_on_shown_book ascii_toLowerCase [dune; foundation] []
           [ {| shown := book_value dune;
                onDelete := handleDeleteBook (index_value 0);
                onEdit := edit_click 0 |};
             {| shown := book_value foundation;
                onDelete := handleDeleteBook (index_value 1);
                onEdit := edit_click 1 |} ]).
  - repeat constructor.
    + exists [], (ascii_toLowerCase (title dune)). reflexivity.
    + exists [], (ascii_toLowerCase (title foundation)). reflexivity.
  - reflexivity.
  - reflexivity.
Defined.

(** ** More on the hook and the store *)

Lemma setItem_cases (st : Storage) (key text : jsstring) :
  (setItem st key text = Normal {| items := <[key := text]> (items st); quota := quota st |}) \/
  (setItem st key text = Throw QuotaExceededError).
Proof.
  unfold setItem. destruct (quota st) as [q|]; [destruct (q <? used _)%nat|]; auto.
Qed.

(** X11. What a call of the hook's setter does to the store, for a value
    and for an updater function alike.  It never throws.  It leaves the
    quota and every key but its own as they were.  Either nothing is logged
    and the key now holds the JSON text of the value, or one error is logged
    and the store is as it was: the updater threw, and then
    [setStoredValue] was not reached, or the store refused the write, and
    then [setStoredValue] was reached all the same. *)
Theorem setValue_call_frame (key : jsstring) (storedValue : value) (arg : setter_arg)
    (st : Storage) :
  exists (r : option value) (st' : Storage) (errs : console),
    setValue_call key storedValue arg st = (r, st', errs) /\
    quota st' = quota st /\
    (forall k : jsstring, k <> key -> getItem st' k = getItem st k) /\
    ((errs = [] /\
      exists v : value,
        r = Some v /\ getItem st' key = Some (storage_text (JSON_stringify v))) \/
     (exists e : error, errs = [e] /\ st' = st)) /\
    (r = None <->
     exists (f : value -> completion value) (e : error),
       arg = Updater f /\ f storedValue = Throw e) /\
    (forall v : value, arg = Plain v -> r = Some v /\ (st', errs) = setValue key v st).
Proof.
  unfold setValue_call, setValue.
  destruct (match arg with Plain v0 => Normal v0 | Updater f => f storedValue end)
    as [w|e'] eqn:Harg.
  - assert (Hr : Some w = None <->
                 exists (f : value -> completion value) (e : error),
                   arg = Updater f /\ f storedValue = Throw e).
    { split; [done|]. intros (f & e & -> & Hf). congruence. }
    assert (Hv : forall v : value, arg = Plain v -> w = v).
    { intros v ->. congruence. }
    destruct (setItem_cases st key (storage_text (JSON_stringify w))) as [Hs|Hs];
      rewrite Hs.
    + eexists _, _, _. split; [done|]. split; [done|]. split.
      { intros k Hk. unfold getItem. cbn [items]. by rewrite lookup_insert_ne. }
      split.
      { left. split; [done|]. exists w. split; [done|].
        unfold getItem. cbn [items]. apply lookup_insert_eq. }
      split; [done|]. intros v Hp. rewrite <- (Hv v Hp), Hs. done.
    + eexists _, _, _. split; [done|]. split; [done|]. split; [done|].
      split; [right; by eexists|]. split; [done|].
      intros v Hp. rewrite <- (Hv v Hp), Hs. done.
  - eexists _, _, _. split; [done|]. split; [done|]. split; [done|].
    split; [right; by eexists|]. split.
    + split; [|done]. intros _. destruct arg as [v|f]; [done|]. by exists f, e'.
    + intros v ->. done.
Qed.

Lemma setValue_call_frame_witness :
  exists (r : option value) (st' : Storage) (errs : console),
    setValue_call k_books (VArr []) (Updater (fun _ => Throw TypeError)) empty_store
    = (r, st', errs) /\
    quota st' = quota empty_store /\
    (forall k : jsstring, k <> k_books -> getItem st' k = getItem empty_store k) /\
    ((errs = [] /\
      exists v : value,
        r = Some v /\ getItem st' k_books = Some (storage_text (JSON_stringify v))) \/
     (exists e : error, errs = [e] /\ st' = empty_store)) /\
    (r = None <->
     exists (f : value -> completion value) (e : error),
       Updater (fun _ => Throw TypeError) = Updater f /\ f (VArr []) = Throw e) /\
    (forall v : value,
       Updater (fun _ => Throw TypeError) = Plain v ->
       r = Some v /\ (st', errs) = setValue k_books v empty_store).
Proof.
  apply (setValue_call_frame k_books (VArr []) (Updater (fun _ => Throw TypeError))
           empty_store).
Defined.

Lemma Save_refused (l : list value) (st st' : Storage) (e : error) (errs : console) :
  Save l st = (st', e :: errs) -> st' = st.
Proof.
  unfold Save, useLocalStorage, setValue; cbn [snd].
  destruct (setItem _ _ _); [done|]. by intros [= <-].
Qed.

Lemma Save_then_Load (C : list Book) (st st' : Storage) :
  Save (books_value C) st = (st', []) -> Load st' = (VArr (books_value C), []).
Proof.
  intros Hsave%Save_accepted.
  unfold JSON_stringify in Hsave. rewrite serialize_books in Hsave.
  apply getItem_setItem in Hsave. by apply Load_collection_text.
Qed.

(** X12. A refused write loses nothing that was stored.  When one
    collection has been saved and the save of the next one is refused, the
    store is as the first save left it, and loading from it gives the first
    collection, with nothing logged. *)
Theorem refused_save_keeps_last_snapshot (C1 C2 : list Book) (st st1 st2 : Storage)
    (e : error) (errs : console) :
  Save (books_value C1) st = (st1, []) ->
  Save (books_value C2) st1 = (st2, e :: errs) ->
  st2 = st1 /\ Load st2 = (VArr (books_value C1), []).
Proof.
  intros H1 H2. apply Save_refused in H2 as ->. split; [done|].
  by apply (Save_then_Load C1 st).
Qed.

Lemma refused_save_keeps_last_snapshot_witness :
  localStorage app_on_small_store = localStorage app_on_small_store /\
  Load (localStorage app_on_small_store) = (VArr (books_value []), []).
Proof.
  apply (refused_save_keeps_last_snapshot [] [dune] small_store
           (localStorage app_on_small_store) (localStorage app_on_small_store)
           QuotaExceededError []).
  - reflexivity.
  - reflexivity.
Defined.

(** ** More on the component *)

Lemma Save_quota (l : list value) (st : Storage) : quota (fst (Save l st)) = quota st.
Proof.
  unfold Save, useLocalStorage, setValue; cbn [snd].
  by destruct (setItem_cases st k_books (storage_text (JSON_stringify (VArr l))))
    as [-> | ->].
Qed.

Lemma Save_unlimited (l : list value) (st : Storage) :
  quota st = None ->
  getItem (fst (Save l st)) k_books = Some (storage_text (JSON_stringify (VArr l))).
Proof.
  intros Hq. destruct (Save_without_quota l st Hq) as [st' Hs]. rewrite Hs.
  apply (getItem_setItem st). by apply Save_accepted.
Qed.

Section ComponentMore.

Variable toLowerCase : jsstring -> jsstring.

Lemma flush_one_books (app : App) (C : list Book) (fuel : nat) :
  elems (state app) = books_value C ->
  pending app = true ->
  effect_due app ->
  ref (storedValue app) = ref (state app) ->
  (ref (state app) < next_ref app)%nat ->
  flush toLowerCase (S fuel) app = Normal (setStoredBooks (commit app)).
Proof.
  intros Hel Hp Hdue Hsv Hlt. cbn [flush]. rewrite Hp.
  rewrite (render_books toLowerCase app C Hel Hdue). cbn [bind].
  destruct (effect_at_rest app Hdue Hsv Hlt) as (Hs & _).
  apply flush_at_rest, Hs.
Qed.

Lemma flush_two_books (app : App) (C : list Book) (fuel : nat) :
  elems (state app) = books_value C ->
  pending app = true ->
  effect_due app ->
  (ref (storedValue app) < ref (state app))%nat ->
  (ref (state app) < next_ref app)%nat ->
  flush toLowerCase (S (S fuel)) app
  = Normal (setStoredBooks (commit (setStoredBooks (commit app)))).
Proof.
  intros Hel Hp Hdue Hsv Hlt. cbn [flush]. rewrite Hp.
  rewrite (render_books toLowerCase app C Hel Hdue). cbn [bind].
  destruct (effect_of_new_state app Hdue Hsv Hlt)
    as (Hp1 & Hdue1 & Hsv1 & Hlt1 & Hst1 & _).
  rewrite Hp1, (render_books toLowerCase _ C); [|by rewrite Hst1|done]. cbn [bind].
  destruct (effect_at_rest _ Hdue1 Hsv1 Hlt1) as (Hs & _).
  apply flush_at_rest, Hs.
Qed.

Lemma dispatch_books (app : App) (action : Action) (C : list Book) (fuel : nat) :
  run toLowerCase app ->
  reducer (elems (state app)) action = Normal (Fresh (books_value C)) ->
  dispatch toLowerCase (S (S fuel)) action app
  = Normal (setStoredBooks (commit (setStoredBooks
                                      (commit (set_state (books_value C) app))))).
Proof.
  intros (Hp & Hd & Hsv & Hlt)%run_settled Hred. unfold dispatch. rewrite Hred.
  cbn [bind]. apply (flush_two_books _ C); cbn; try done; try lia.
  right. by eexists _, _.
Qed.

(** X13. When the store refuses the write of a new collection, the
    component keeps it in memory only: the state is the new collection, the
    store is as it was, and each of the two Save calls that follow the
    action logs the error.  What the page shows and what a reload will show
    are then different. *)
Theorem refused_write_keeps_memory (app : App) (action : Action) (C : list Book)
    (fuel : nat) (e : error) (errs : console) (st' : Storage) :
  run toLowerCase app ->
  (2 <= fuel)%nat ->
  reducer (elems (state app)) action = Normal (Fresh (books_value C)) ->
  Save (books_value C) (localStorage app) = (st', e :: errs) ->
  exists app' : App,
    dispatch toLowerCase fuel action app = Normal app' /\
    elems (state app') = books_value C /\
    localStorage app' = localStorage app /\
    trace app'
    = trace app
        ++ [Reduced (books_value C); Rendered (books_value C); SaveCall (books_value C)]
        ++ map ConsoleError (e :: errs)
        ++ [Rendered (books_value C); SaveCall (books_value C)]
        ++ map ConsoleError (e :: errs).
Proof.
  intros Hrun Hfuel Hred Hsave. destruct fuel as [|[|fuel]]; [lia..|].
  pose proof (Save_refused _ _ _ _ _ Hsave) as ->.
  eexists. split; [by apply (dispatch_books app action C)|].
  rewrite !setStoredBooks_eq. unfold commit, set_state.
  cbn [state elems localStorage trace]. rewrite Hsave. cbn [fst snd]. rewrite Hsave.
  cbn [fst snd]. split; [done|]. split; [done|].
  rewrite <- !app_assoc. reflexivity.
Qed.

(** X14. With a store that has no quota, whenever the component is at rest
    - after its first render and after every event since - the text stored
    under [books] is the JSON text of the state; and when the state is a
    collection of books, loading from the store gives that collection. *)
Theorem store_follows_state (app : App) :
  run toLowerCase app ->
  quota (localStorage app) = None ->
  getItem (localStorage app) k_books
  = Some (storage_text (JSON_stringify (VArr (elems (state app))))) /\
  (forall C : list Book,
     elems (state app) = books_value C ->
     Load (localStorage app) = (VArr (books_value C), [])).
Proof.
  intros Hrun Hq.
  assert (Hget : getItem (localStorage app) k_books
                 = Some (storage_text (JSON_stringify (VArr (elems (state app)))))).
  { induction Hrun as [st fuel app Hfuel Hm
                      |app action fuel app' Hrun IH Hfuel Hd
                      |app term fuel app' Hrun IH Hfuel Hs
                      |app page fuel app' Hrun IH Hfuel Hp].
    - unfold mount in Hm. destruct (Load st) as [v errs].
      destruct v as [| | | | |l|]; try done.
      destruct fuel as [|fuel]; [lia|].
      apply one_render in Hm as [-> _]; try done; cbn; [|by left|lia].
      rewrite setStoredBooks_eq in Hq |- *. cbn [localStorage state elems] in *.
      rewrite Save_quota in Hq. by apply Save_unlimited.
    - unfold dispatch in Hd.
      destruct (reducer _ _) as [[l|]|]; cbn [bind] in Hd; try done.
      + pose proof (run_settled _ _ Hrun) as (Hp & Hdeps & Hsv & Hlt).
        destruct fuel as [|[|fuel]]; [lia..|].
        apply two_renders in Hd as [-> _]; try done; cbn; try lia.
        2:{ right. by eexists _, _. }
        rewrite setStoredBooks_eq in Hq |- *. cbn [localStorage state elems commit] in *.
        rewrite Save_quota in Hq. by apply Save_unlimited.
      + injection Hd as <-. by apply IH.
    - unfold handleSearch in Hs.
      destruct (str_eqb _ _); [injection Hs as <-; by apply IH|].
      pose proof (run_settled _ _ Hrun) as (Hp & Hdeps & Hsv & Hlt).
      destruct fuel as [|fuel]; [lia|].
      apply one_render in Hs as [-> _]; try done.
      2:{ right. by eexists _, _. }
      rewrite setStoredBooks_eq in Hq |- *. cbn [localStorage state elems commit] in *.
      rewrite Save_quota in Hq. by apply Save_unlimited.
    - unfold paginate in Hp.
      destruct (_ =? _)%Z; [injection Hp as <-; by apply IH|].
      pose proof (run_settled _ _ Hrun) as (Hp' & Hdeps & Hsv & Hlt).
      destruct fuel as [|fuel]; [lia|].
      apply one_render in Hp as [-> _]; try done.
      2:{ right. by eexists _, _. }
      rewrite setStoredBooks_eq in Hq |- *. cbn [localStorage state elems commit] in *.
      rewrite Save_quota in Hq. by apply Save_unlimited. }
  split; [done|]. intros C HC. apply Load_collection_text.
  rewrite Hget, HC. unfold JSON_stringify. by rewrite serialize_books.
Qed.

End ComponentMore.

Lemma run_app_on_small_store : run ascii_toLowerCase app_on_small_store.
Proof. by apply (run_mount _ small_store 1). Defined.

Lemma refused_write_keeps_memory_witness :
  exists app' : App,
    dispatch ascii_toLowerCase 2 (handleAddBook (book_value dune)) app_on_small_store
    = Normal app' /\
    elems (state app') = books_value [dune] /\
    localStorage app' = localStorage app_on_small_store /\
    trace app'
    = trace app_on_small_store
        ++ [Reduced (books_value [dune]); Rendered (books_value [dune]);
            SaveCall (books_value [dune])]
        ++ map ConsoleError [QuotaExceededError]
        ++ [Rendered (books_value [dune]); SaveCall (books_value [dune])]
        ++ map ConsoleError [QuotaExceededError].
Proof.
  apply (refused_write_keeps_memory ascii_toLowerCase app_on_small_store
           (handleAddBook (book_value dune)) [dune] 2 QuotaExceededError []
           (localStorage app_on_small_store) run_app_on_small_store (le_n 2)).
  - reflexivity.
  - reflexivity.
Defined.

Lemma store_follows_state_witness :
  getItem (localStorage app_at_rest) k_books
  = Some (storage_text (JSON_stringify (VArr (elems (state app_at_rest))))) /\
  (forall C : list Book,
     elems (state app_at_rest) = books_value C ->
     Load (localStorage app_at_rest) = (VArr (books_value C), [])).
Proof.
  apply (store_follows_state ascii_toLowerCase app_at_rest run_app_at_rest).
  reflexivity.
Defined.

Lemma save_calls_saved (l : list value) (errs : console) :
  save_calls (SaveCall l :: map ConsoleError errs) = [l].
Proof. change (save_calls (SaveCall l :: map ConsoleError errs))
         with (l :: save_calls (map ConsoleError errs)).
       by rewrite save_calls_errors.
Qed.

Section ComponentEvents.

Variable toLowerCase : jsstring -> jsstring.

Lemma mount_loaded_books (st : Storage) (C : list Book) (errs : console) (fuel : nat) :
  Load st = (VArr (books_value C), errs) ->
  mount toLowerCase (S fuel) st
  = Normal (setStoredBooks (commit (initial st (books_value C) errs))).
Proof.
  intros HL. unfold mount. rewrite HL.
  apply (flush_one_books toLowerCase _ C); cbn; try done; [by left|lia].
Qed.

(** X15. The first render writes over a text it cannot read.  With nothing
    stored under [books], or with a text there that does not parse, and a
    store without a quota, the component starts from the empty collection
    and its first effect stores the text of the empty collection: what was
    stored is gone before the user has done anything. *)
Theorem first_render_replaces_unreadable_text (st : Storage) (fuel : nat) :
  quota st = None ->
  (getItem st k_books = None \/
   exists (c : N) (s : jsstring) (e : error),
     getItem st k_books = Some (c :: s) /\ JSON_parse (c :: s) = Throw e) ->
  exists (app : App) (errs : console),
    mount toLowerCase (S fuel) st = Normal app /\
    run toLowerCase app /\
    elems (state app) = [] /\
    getItem (localStorage app) k_books = Some (collection_text []) /\
    trace app = map ConsoleError errs ++ [Rendered []; SaveCall []].
Proof.
  intros Hq Hst.
  assert (HL : exists errs, Load st = (VArr (books_value []), errs)).
  { destruct Hst as [Hnone|(c & s & e & Hget & Hp)].
    - exists []. unfold Load, useLocalStorage, initial_storedValue, read_item; cbn [fst].
      by rewrite Hnone.
    - exists [e]. by rewrite (Load_text _ _ _ Hget), Hp. }
  destruct HL as [errs HL].
  pose proof (mount_loaded_books st [] errs fuel HL) as Hm.
  eexists _, errs. split; [done|].
  split; [apply (run_mount _ st (S fuel)); [lia|done]|].
  rewrite setStoredBooks_eq. unfold commit, initial.
  cbn [state elems localStorage trace books_value map].
  split; [done|]. split.
  - rewrite (Save_unlimited [] st Hq). reflexivity.
  - destruct (Save_without_quota [] st Hq) as [st' ->]. cbn [snd map].
    by rewrite <- app_assoc.
Qed.

Lemma Save_same_text (l : list value) (st : Storage) :
  getItem st k_books = Some (storage_text (JSON_stringify (VArr l))) ->
  fst (Save l st) = st.
Proof.
  intros Hget. unfold Save, useLocalStorage, setValue; cbn [snd].
  destruct (setItem_cases st k_books (storage_text (JSON_stringify (VArr l))))
    as [-> | ->]; [|done].
  cbn [fst]. unfold getItem in Hget. rewrite insert_id by done. by destruct st.
Qed.

Lemma Save_cases (l : list value) (st : Storage) :
  (exists st' : Storage,
     setItem st k_books (storage_text (JSON_stringify (VArr l))) = Normal st' /\
     Save l st = (st', [])) \/
  (exists e : error,
     setItem st k_books (storage_text (JSON_stringify (VArr l))) = Throw e /\
     Save l st = (st, [e])).
Proof.
  unfold Save, useLocalStorage, setValue; cbn [snd].
  destruct (setItem _ _ _) as [st'|e]; [left|right]; by eexists.
Qed.

(** X16. The first render on a stored collection.  When the stored text
    parses to a collection of books, however it is spelled, the component
    starts with that collection, on page 1 with an empty search term,
    commits one render and calls Save once with the collection it has just
    loaded.  That call is a write like any other: a store that takes it
    holds the text Save writes for the collection from then on, so a text
    spelled otherwise is replaced, and a store that holds that very text,
    or that refuses the write, stays as it was. *)
Theorem first_render_saves_what_it_loaded (st : Storage) (s : jsstring)
    (C : list Book) (fuel : nat) :
  getItem st k_books = Some s ->
  JSON_parse s = Normal (VArr (books_value C)) ->
  exists (app : App) (errs : console),
    mount toLowerCase (S fuel) st = Normal app /\
    run toLowerCase app /\
    elems (state app) = books_value C /\
    currentPage app = 1 /\
    searchTerm app = [] /\
    trace app = [Rendered (books_value C); SaveCall (books_value C)]
                  ++ map ConsoleError errs /\
    Save (books_value C) st = (localStorage app, errs) /\
    (forall st' : Storage,
       setItem st k_books (collection_text C) = Normal st' ->
       errs = [] /\ localStorage app = st' /\
       getItem (localStorage app) k_books = Some (collection_text C)) /\
    (forall e : error,
       setItem st k_books (collection_text C) = Throw e ->
       errs = [e] /\ localStorage app = st) /\
    (s = collection_text C -> localStorage app = st).
Proof.
  intros Hget Hp.
  assert (HL : Load st = (VArr (books_value C), [])).
  { destruct s as [|c s]; [done|]. by rewrite (Load_text _ _ _ Hget), Hp. }
  assert (Htext : storage_text (JSON_stringify (VArr (books_value C))) = collection_text C).
  { unfold JSON_stringify. by rewrite serialize_books. }
  pose proof (mount_loaded_books st C [] fuel HL) as Hm.
  exists (setStoredBooks (commit (initial st (books_value C) []))),
    (snd (Save (books_value C) st)).
  split; [done|].
  split; [apply (run_mount _ st (S fuel)); [lia|done]|].
  rewrite setStoredBooks_eq. unfold commit, initial.
  cbn [state elems localStorage trace currentPage searchTerm map app].
  split; [done|]. split; [done|]. split; [done|]. split; [done|].
  split; [by destruct (Save (books_value C) st)|].
  destruct (Save_cases (books_value C) st) as [(st1 & Hset & Hsave)|(e1 & Hset & Hsave)];
    rewrite Htext in Hset; rewrite Hsave; cbn [fst snd].
  - split; [|split].
    + intros st' Hset'. rewrite Hset in Hset'. injection Hset' as <-.
      split; [done|]. split; [done|]. by apply (getItem_setItem st).
    + intros e Hset'. by rewrite Hset in Hset'.
    + intros ->. pose proof (Save_same_text (books_value C) st) as Hsame.
      rewrite Htext, Hsave in Hsame. by apply Hsame.
  - split; [|split; [|done]].
    + intros st' Hset'. by rewrite Hset in Hset'.
    + intros e Hset'. rewrite Hset in Hset'. by injection Hset' as <-.
Qed.

Lemma dispatch_step (app : App) (action : Action) (C : list Book) (fuel : nat) :
  run toLowerCase app ->
  (2 <= fuel)%nat ->
  reducer (elems (state app)) action = Normal (Fresh (books_value C)) ->
  exists app' : App,
    dispatch toLowerCase fuel action app = Normal app' /\
    run toLowerCase app' /\
    elems (state app') = books_value C /\
    ref (state app') = next_ref app /\
    currentPage app' = currentPage app /\
    searchTerm app' = searchTerm app /\
    save_calls (trace app') = save_calls (trace app) ++ [books_value C; books_value C].
Proof.
  intros Hrun Hfuel Hred. destruct fuel as [|[|fuel]]; [lia..|].
  pose proof (dispatch_books toLowerCase app action C fuel Hrun Hred) as Hd.
  eexists. split; [done|].
  split; [by apply (run_dispatch _ app action (S (S fuel)))|].
  rewrite !setStoredBooks_eq. unfold commit, set_state.
  cbn [state elems ref localStorage trace currentPage searchTerm].
  repeat split.
  rewrite !save_calls_app, !save_calls_saved.
  change (save_calls [Reduced (books_value C)]) with (@nil (list value)).
  change (save_calls [Rendered (books_value C)]) with (@nil (list value)).
  rewrite !app_nil_r, <- !app_assoc. reflexivity.
Qed.

Lemma rerender_step (app app1 : App) (C : list Book) (fuel : nat) :
  run toLowerCase app ->
  (1 <= fuel)%nat ->
  elems (state app) = books_value C ->
  pending app1 = true ->
  state app1 = state app ->
  storedValue app1 = storedValue app ->
  next_ref app1 = next_ref app ->
  last_deps app1 = last_deps app ->
  renders app1 = renders app ->
  trace app1 = trace app ->
  exists errs : console,
    flush toLowerCase fuel app1 = Normal (setStoredBooks (commit app1)) /\
    trace (setStoredBooks (commit app1))
    = trace app ++ [Rendered (books_value C); SaveCall (books_value C)]
        ++ map ConsoleError errs.
Proof.
  intros (Hp & Hd & Hsv & Hlt)%run_settled Hfuel Hel Hp1 Hst Hsv1 Hnr Hld Hrn Htr.
  destruct fuel as [|fuel]; [lia|].
  eexists. split.
  - apply (flush_one_books toLowerCase _ C); rewrite ?Hst, ?Hsv1, ?Hnr; try done.
    right. exists (ref (state app)), (renders app). rewrite Hld, Hrn. by split.
  - rewrite setStoredBooks_eq. unfold commit. cbn [state elems trace].
    rewrite Hst, Htr, Hel, <- app_assoc. reflexivity.
Qed.

Lemma rerender_saves (app app1 : App) (C : list Book) (fuel : nat) :
  run toLowerCase app ->
  (1 <= fuel)%nat ->
  elems (state app) = books_value C ->
  pending app1 = true ->
  state app1 = state app ->
  storedValue app1 = storedValue app ->
  next_ref app1 = next_ref app ->
  last_deps app1 = last_deps app ->
  renders app1 = renders app ->
  trace app1 = trace app ->
  flush toLowerCase fuel app1 = Normal (setStoredBooks (commit app1)) /\
  save_calls (trace (setStoredBooks (commit app1)))
  = save_calls (trace app) ++ [books_value C].
Proof.
  intros Hrun Hfuel Hel Hp1 Hst Hsv1 Hnr Hld Hrn Htr.
  destruct (rerender_step app app1 C fuel) as (errs & Hf & Htrace);
    try done.
  split; [done|]. rewrite Htrace, !save_calls_app, save_calls_errors.
  by rewrite app_nil_r.
Qed.

(** X17. Typing a search term or choosing a page changes neither the
    collection nor the other of the two; and when the term, or the page, is
    a new one, the component comes to rest after exactly one more Save call,
    which carries the unchanged collection: the setter the effect depends on
    is a new function at every committed render.  Setting the term or the
    page to what it is changes nothing and saves nothing. *)
Theorem search_and_page_save_again (app : App) (C : list Book) (fuel : nat) :
  run toLowerCase app ->
  elems (state app) = books_value C ->
  (1 <= fuel)%nat ->
  (forall term : jsstring,
     term <> searchTerm app ->
     exists app' : App,
       handleSearch toLowerCase fuel term app = Normal app' /\
       run toLowerCase app' /\
       state app' = state app /\
       searchTerm app' = term /\
       currentPage app' = currentPage app /\
       save_calls (trace app') = save_calls (trace app) ++ [books_value C]) /\
  (forall pageNumber : Z,
     pageNumber <> currentPage app ->
     exists app' : App,
       paginate toLowerCase fuel pageNumber app = Normal app' /\
       run toLowerCase app' /\
       state app' = state app /\
       searchTerm app' = searchTerm app /\
       currentPage app' = pageNumber /\
       save_calls (trace app') = save_calls (trace app) ++ [books_value C]) /\
  handleSearch toLowerCase fuel (searchTerm app) app = Normal app /\
  paginate toLowerCase fuel (currentPage app) app = Normal app.
Proof.
  intros Hrun Hel Hfuel. refine (conj _ (conj _ (conj _ _))).
  - intros term Hterm.
    assert (Hneq : str_eqb term (searchTerm app) = false).
    { destruct (str_eqb term (searchTerm app)) eqn:H; [|done]. by apply str_eqb_eq in H. }
    destruct (rerender_saves app (setSearchTerm term app) C fuel) as (Hf & Hsaves);
      try done.
    assert (Hs : handleSearch toLowerCase fuel term app
                 = Normal (setStoredBooks (commit (setSearchTerm term app))))
      by (unfold handleSearch; by rewrite Hneq).
    eexists. split; [done|].
    split; [by apply (run_handleSearch _ app term fuel)|].
    split; [by rewrite setStoredBooks_eq|]. split; [by rewrite setStoredBooks_eq|].
    split; [by rewrite setStoredBooks_eq|done].
  - intros page Hpage.
    assert (Hneq : (page =? currentPage app) = false) by by apply Z.eqb_neq.
    destruct (rerender_saves app (setCurrentPage page app) C fuel) as (Hf & Hsaves);
      try done.
    assert (Hs : paginate toLowerCase fuel page app
                 = Normal (setStoredBooks (commit (setCurrentPage page app))))
      by (unfold paginate; by rewrite Hneq).
    eexists. split; [done|].
    split; [by apply (run_paginate _ app page fuel)|].
    split; [by rewrite setStoredBooks_eq|]. split; [by rewrite setStoredBooks_eq|].
    split; [by rewrite setStoredBooks_eq|done].
  - unfold handleSearch. by rewrite str_eqb_refl.
  - unfold paginate. by rewrite Z.eqb_refl.
Qed.

(** X18. Delete at a position that is no index of the collection leaves
    the books as they are, yet the state is a new array: the component
    renders and there are two Save calls, each with the unchanged
    collection. *)
Theorem delete_out_of_range_still_saves (app : App) (C : list Book) (p : Z) (fuel : nat) :
  run toLowerCase app ->
  elems (state app) = books_value C ->
  (2 <= fuel)%nat ->
  p < 0 \/ Z.of_nat (length C) <= p ->
  exists app' : App,
    dispatch toLowerCase fuel (handleDeleteBook (position p)) app = Normal app' /\
    elems (state app') = elems (state app) /\
    ref (state app') <> ref (state app) /\
    save_calls (trace app')
    = save_calls (trace app) ++ [books_value C; books_value C].
Proof.
  intros Hrun Hel Hfuel Hp.
  destruct (dispatch_step app (handleDeleteBook (position p)) C fuel Hrun Hfuel)
    as (app' & Hd & _ & Hel' & Href & _ & _ & Hsaves).
  { rewrite Hel, reducer_delete. case_decide; [|done].
    rewrite delete_out_of_range; [done|]. unfold books_value. rewrite length_map. lia. }
  exists app'. split; [done|]. split; [by rewrite Hel', Hel|]. split; [|done].
  apply run_settled in Hrun as (_ & _ & _ & Hlt). lia.
Qed.

Lemma render_throws (app : App) :
  forallb has_title (elems (state app)) = false ->
  render toLowerCase app = Throw TypeError.
Proof. intros Hall. unfold render. by rewrite rows_throw. Qed.

Lemma dispatch_untitled (app : App) (action : Action) (l : list value) (fuel : nat) :
  reducer (elems (state app)) action = Normal (Fresh l) ->
  forallb has_title l = false ->
  dispatch toLowerCase (S fuel) action app = Throw TypeError.
Proof.
  intros Hred Hall. unfold dispatch. rewrite Hred. cbn [bind flush set_state pending].
  by rewrite render_throws.
Qed.

(** X19. The reducer takes what the render cannot show.  Adding a value
    whose [title] is not a string, and an edit of an existing slot whose
    payload has no [book], are accepted by the reducer; the render that
    follows throws a [TypeError], and the event ends with that error. *)
Theorem untitled_payload_ends_the_component (app : App) (v : value) (fuel : nat) :
  (1 <= fuel)%nat ->
  has_title v = false ->
  dispatch toLowerCase fuel (handleAddBook v) app = Throw TypeError /\
  (forall i : nat,
     (i < length (elems (state app)))%nat ->
     dispatch toLowerCase fuel
       {| type := VStr EDIT_BOOK; payload := VObj [(k_index, index_value i)] |} app
     = Throw TypeError).
Proof.
  intros Hfuel Hv. destruct fuel as [|fuel]; [lia|]. split.
  - apply (dispatch_untitled _ _ (elems (state app) ++ [v])); [done|].
    rewrite forallb_app. cbn [forallb]. rewrite Hv. by rewrite andb_false_r.
  - intros i Hi.
    apply (dispatch_untitled _ _ (<[i := VUndefined]> (elems (state app)))).
    + rewrite (reducer_edit_index _ _ (index_value i) VUndefined) by reflexivity.
      by rewrite index_of_index_value.
    + apply not_true_is_false. intros Hall.
      rewrite forallb_forall in Hall.
      specialize (Hall VUndefined). rewrite <- list_elem_of_In in Hall.
      assert (VUndefined ∈ <[i := VUndefined]> (elems (state app))) as Hin.
      { apply list_elem_of_lookup. exists i. by apply list_lookup_insert_eq. }
      by specialize (Hall Hin).
Qed.

End ComponentEvents.

Lemma run_app_with_dune : run ascii_toLowerCase app_with_dune.
Proof. by apply (run_mount _ (store_with (collection_text [dune])) 1). Defined.

Lemma first_render_replaces_unreadable_text_witness :
  exists (app : App) (errs : console),
    mount ascii_toLowerCase 1 (store_with t_broken) = Normal app /\
    run ascii_toLowerCase app /\
    elems (state app) = [] /\
    getItem (localStorage app) k_books = Some (collection_text []) /\
    trace app = map ConsoleError errs ++ [Rendered []; SaveCall []].
Proof.
  apply (first_render_replaces_unreadable_text ascii_toLowerCase (store_with t_broken) 0).
  - reflexivity.
  - right. exists 91%N, (drop 1 t_broken), SyntaxError. split; reflexivity.
Defined.

Lemma first_render_saves_what_it_loaded_witness :
  exists app : App,
    mount ascii_toLowerCase 1 (store_with (32%N :: collection_text [dune])) = Normal app /\
    elems (state app) = books_value [dune] /\
    save_calls (trace app) = [books_value [dune]] /\
    localStorage app = store_with (collection_text [dune]).
Proof.
  destruct (first_render_saves_what_it_loaded ascii_toLowerCase
              (store_with (32%N :: collection_text [dune]))
              (32%N :: collection_text [dune]) [dune] 0 eq_refl eq_refl)
    as (app & errs & Hm & _ & Hel & _ & _ & Htr & _ & Hacc & _ & _).
  destruct (Hacc (store_with (collection_text [dune])) eq_refl) as (Herrs & Hst & _).
  exists app. split; [exact Hm|]. split; [exact Hel|]. split; [|exact Hst].
  rewrite Htr, Herrs. reflexivity.
Defined.

Lemma search_and_page_save_again_witness :
  (exists app' : App,
     handleSearch ascii_toLowerCase 1 t_found app_with_dune = Normal app' /\
     run ascii_toLowerCase app' /\
     state app' = state app_with_dune /\
     searchTerm app' = t_found /\
     currentPage app' = currentPage app_with_dune /\
     save_calls (trace app') = save_calls (trace app_with_dune) ++ [books_value [dune]]) /\
  (exists app' : App,
     paginate ascii_toLowerCase 1 2 app_with_dune = Normal app' /\
     run ascii_toLowerCase app' /\
     state app' = state app_with_dune /\
     searchTerm app' = searchTerm app_with_dune /\
     currentPage app' = 2 /\
     save_calls (trace app') = save_calls (trace app_with_dune) ++ [books_value [dune]]).
Proof.
  destruct (search_and_page_save_again ascii_toLowerCase app_with_dune [dune] 1
              run_app_with_dune eq_refl (le_n 1)) as (Hsearch & Hpage & _).
  split; [apply Hsearch|apply Hpage]; discriminate.
Defined.

Lemma delete_out_of_range_still_saves_witness :
  exists app' : App,
    dispatch ascii_toLowerCase 2 (handleDeleteBook (position 1)) app_with_dune
    = Normal app' /\
    elems (state app') = elems (state app_with_dune) /\
    ref (state app') <> ref (state app_with_dune) /\
    save_calls (trace app')
    = save_calls (trace app_with_dune) ++ [books_value [dune]; books_value [dune]].
Proof.
  apply (delete_out_of_range_still_saves ascii_toLowerCase app_with_dune [dune] 1 2
           run_app_with_dune eq_refl (le_n 2)).
  right. discriminate.
Defined.

Lemma untitled_payload_ends_the_component_witness :
  dispatch ascii_toLowerCase 1 (handleAddBook (VObj [])) app_with_dune = Throw TypeError /\
  dispatch ascii_toLowerCase 1
    {| type := VStr EDIT_BOOK; payload := VObj [(k_index, index_value 0)] |}
    app_with_dune
  = Throw TypeError.
Proof.
  destruct (untitled_payload_ends_the_component ascii_toLowerCase app_with_dune (VObj []) 1
              (le_n 1) eq_refl) as (Hadd & Hedit).
  split; [exact Hadd|]. apply (Hedit 0%nat). apply le_n.
Defined.

(** A book whose author is an object passes the filter; React refuses the
    object as a child of the cell, and the render fails. *)
Example object_field_ends_the_component :
  dispatch ascii_toLowerCase 1
    (handleAddBook (VObj [(k_title, VStr (title dune)); (k_author, VObj []);
                          (k_year, VStr (year dune))]))
    app_at_rest
  = Throw ChildError.
Proof. reflexivity. Qed.

(** ** The events of the page *)

Lemma previous_click_positive (page : Z) : 1 <= page -> 1 <= previous_click page.
Proof. unfold previous_click. destruct (Z.ltb_spec 1 page); lia. Qed.

Lemma next_click_positive (page last : Z) : 1 <= page -> 1 <= next_click page last.
Proof. unfold next_click. destruct (Z.ltb_spec page last); lia. Qed.

Lemma is_page_button_positive (n last : Z) : is_page_button n last = true -> 1 <= n.
Proof.
  unfold is_page_button. intros (x & Hx & ->%Z.eqb_eq)%existsb_exists.
  apply list_elem_of_In, elem_of_page_buttons in Hx. lia.
Qed.

Lemma reducer_submit (C : list Book) (t a y : jsstring) :
  reducer (books_value C) (handleSubmit t a y)
  = Normal (Fresh (books_value (C ++ [ {| title := t; author := a; year := y |} ]))).
Proof. by rewrite <- books_value_app. Qed.

Section PageEvents.

Variable toLowerCase : jsstring -> jsstring.

Lemma paginate_step (app : App) (C : list Book) (n : Z) (fuel : nat) :
  run toLowerCase app ->
  elems (state app) = books_value C ->
  (1 <= fuel)%nat ->
  exists app' : App,
    paginate toLowerCase fuel n app = Normal app' /\
    run toLowerCase app' /\
    state app' = state app /\
    currentPage app' = n.
Proof.
  intros Hrun Hel Hfuel. unfold paginate.
  destruct (Z.eqb_spec n (currentPage app)) as [->|Hne]; [by exists app|].
  destruct (rerender_step toLowerCase app (setCurrentPage n app) C fuel)
    as (errs & Hf & _); try done.
  eexists. split; [done|]. split.
  - apply (run_paginate _ app n fuel); try done.
    unfold paginate. by rewrite (proj2 (Z.eqb_neq _ _) Hne).
  - by rewrite setStoredBooks_eq.
Qed.

Lemma search_step (app : App) (C : list Book) (term : jsstring) (fuel : nat) :
  run toLowerCase app ->
  elems (state app) = books_value C ->
  (1 <= fuel)%nat ->
  exists app' : App,
    handleSearch toLowerCase fuel term app = Normal app' /\
    run toLowerCase app' /\
    state app' = state app /\
    currentPage app' = currentPage app.
Proof.
  intros Hrun Hel Hfuel. unfold handleSearch.
  destruct (str_eqb term (searchTerm app)) eqn:Hterm; [by exists app|].
  destruct (rerender_step toLowerCase app (setSearchTerm term app) C fuel)
    as (errs & Hf & _); try done.
  eexists. split; [done|]. split.
  - apply (run_handleSearch _ app term fuel); try done.
    unfold handleSearch. by rewrite Hterm.
  - by rewrite setStoredBooks_eq.
Qed.

Lemma click_step (app : App) (ev : ui_event) (fuel : nat) :
  run toLowerCase app ->
  holds_books app ->
  1 <= currentPage app ->
  (2 <= fuel)%nat ->
  exists app' : App,
    click toLowerCase fuel ev app = Normal app' /\
    run toLowerCase app' /\
    holds_books app' /\
    1 <= currentPage app'.
Proof.
  intros Hrun [C HC] Hpage Hfuel.
  assert (Hself : exists app' : App,
             Normal app = Normal app' /\ run toLowerCase app' /\
             holds_books app' /\ 1 <= currentPage app').
  { exists app. repeat split; try done. by exists C. }
  assert (Hdispatch : forall (action : Action) (C' : list Book),
             reducer (books_value C) action = Normal (Fresh (books_value C')) ->
             exists app' : App,
               dispatch toLowerCase fuel action app = Normal app' /\
               run toLowerCase app' /\ holds_books app' /\ 1 <= currentPage app').
  { intros action C' Hred.
    destruct (dispatch_step toLowerCase app action C' fuel Hrun Hfuel)
      as (app' & Hd & Hrun' & Hel' & _ & Hpage' & _); [by rewrite HC|].
    exists app'. repeat split; try done; [by exists C'|lia]. }
  assert (Hpaginate : forall n : Z,
             1 <= n ->
             exists app' : App,
               paginate toLowerCase fuel n app = Normal app' /\
               run toLowerCase app' /\ holds_books app' /\ 1 <= currentPage app').
  { intros n Hn.
    destruct (paginate_step app C n fuel Hrun HC) as (app' & Hp & Hrun' & Hst & Hpg);
      [lia|].
    exists app'. repeat split; try done; [|lia]. exists C. by rewrite Hst. }
  destruct ev as [t a y|term|i t a y|i| | |n]; cbn [click].
  - apply (Hdispatch _ _ (reducer_submit C t a y)).
  - destruct (search_step app C term fuel Hrun HC) as (app' & Hs & Hrun' & Hst & Hpg);
      [lia|].
    exists app'. repeat split; try done; [|lia]. exists C. by rewrite Hst.
  - rewrite HC, rows_books. cbn [bind]. rewrite list_lookup_imap.
    destruct (page_of _ _ !! i) as [x|]; cbn [fmap option_fmap option_map onEdit];
      [|done].
    unfold edit_click. destruct (truthy t && truthy a && truthy y); [|done].
    apply (Hdispatch _ (<[i := {| title := default [] t; author := default [] a;
                                  year := default [] y |}]> C)).
    unfold handleEditBook.
    rewrite (reducer_edit_index _ _ (index_value i)
               (book_value {| title := default [] t; author := default [] a;
                              year := default [] y |})) by reflexivity.
    by rewrite index_of_index_value, books_value_insert.
  - rewrite HC, rows_books. cbn [bind]. rewrite list_lookup_imap.
    destruct (page_of _ _ !! i) as [x|]; cbn [fmap option_fmap option_map onDelete];
      [|done].
    apply (Hdispatch _ (delete i C)).
    by rewrite reducer_delete_index, index_of_index_value, books_value_delete.
  - destruct (previous_disabled (currentPage app)); [done|].
    by apply Hpaginate, previous_click_positive.
  - destruct (view_of_books toLowerCase C (searchTerm app) (currentPage app))
      as (rs & last & _ & Hlast).
    rewrite HC, Hlast. cbn [bind].
    destruct (next_disabled (currentPage app) last); [done|].
    by apply Hpaginate, next_click_positive.
  - destruct (view_of_books toLowerCase C (searchTerm app) (currentPage app))
      as (rs & last & _ & Hlast).
    rewrite HC, Hlast. cbn [bind].
    destruct (is_page_button n last) eqn:Hn; [|done].
    by apply Hpaginate, (is_page_button_positive n last).
Qed.

Lemma clicks_steps (evs : list ui_event) (app : App) (fuel : nat) :
  run toLowerCase app ->
  holds_books app ->
  1 <= currentPage app ->
  (2 <= fuel)%nat ->
  exists app' : App,
    clicks toLowerCase fuel evs app = Normal app' /\
    run toLowerCase app' /\
    holds_books app' /\
    1 <= currentPage app'.
Proof.
  revert app. induction evs as [|ev evs IH]; intros app Hrun Hb Hp Hfuel.
  - by exists app.
  - destruct (click_step app ev fuel Hrun Hb Hp Hfuel) as (app1 & Hc & Hrun1 & Hb1 & Hp1).
    destruct (IH app1 Hrun1 Hb1 Hp1 Hfuel) as (app' & Hcs & H').
    exists app'. cbn [clicks]. rewrite Hc. by split.
Qed.

(** X20. No event of the page makes the component fail.  Started on a
    store from which a collection of books is loaded - a stored collection,
    nothing, or a text that does not parse - and taken through any sequence
    of form submissions, search terms, Edit and Delete clicks on the rows
    shown, and clicks on Previous, Next and the numbered buttons, the
    component comes to rest after each event, renders without an error, and
    its state is still a collection of books and its page still [>= 1]. *)
Theorem no_event_throws (st : Storage) (C : list Book) (evs : list ui_event)
    (fuel : nat) :
  (2 <= fuel)%nat ->
  fst (Load st) = VArr (books_value C) ->
  exists app app' : App,
    mount toLowerCase fuel st = Normal app /\
    clicks toLowerCase fuel evs app = Normal app' /\
    run toLowerCase app' /\
    holds_books app' /\
    1 <= currentPage app'.
Proof.
  intros Hfuel HL. destruct fuel as [|fuel]; [lia|].
  destruct (Load st) as [v errs] eqn:HLoad. cbn [fst] in HL. subst v.
  pose proof (mount_loaded_books toLowerCase st C errs fuel HLoad) as Hm.
  destruct (clicks_steps evs (setStoredBooks (commit (initial st (books_value C) errs)))
              (S fuel)) as (app' & Hcs & H'); try done.
  - by apply (run_mount _ st (S fuel)); [lia|].
  - exists C. by rewrite setStoredBooks_eq.
  - by rewrite setStoredBooks_eq.
  - by eexists _, app'.
Qed.

End PageEvents.


Lemma no_event_throws_witness :
  exists app app' : App,
    mount ascii_toLowerCase 2 (store_with (collection_text [dune])) = Normal app /\
    clicks ascii_toLowerCase 2
      [Submit (title foundation) (author foundation) (year foundation);
       Search t_found; ClickDelete 0;
       ClickEdit 0 (Some (title dune)) (Some (author dune)) None;
       ClickNext; ClickPage 2; ClickPrevious] app
    = Normal app' /\
    run ascii_toLowerCase app' /\
    holds_books app' /\
    1 <= currentPage app'.
Proof.
  apply (no_event_throws ascii_toLowerCase (store_with (collection_text [dune])) [dune]
           _ 2 (le_n 2)).
  reflexivity.
Defined.

